(** * Model viewer: local asset resolution, handle lifecycle, framing, lighting

    A shallow embedding of the script of [src/views/HomeView.vue]: the path
    normalizer, the asset index, the resource resolver, the object-URL
    lifecycle around [loadModelFromFileSet], the adaptive scene look and the
    camera auto-framing, followed by the properties proved of them.

    Conventions of the embedding.
    - A JavaScript string is a Rocq [string], read as the UTF-8 bytes of the
      text.  All characters the code inspects ([%], [/], [\], [.], [?], [#],
      [:], letters) are ASCII, so the regular expressions act on bytes exactly
      as they act on characters.  [toLowerCase] is the ASCII case mapping,
      which is what the code computes on names without cased letters outside
      ASCII.
    - A function that may raise returns [Result]; [Throw] carries the
      JavaScript exception.
    - [Map<string, File>] is a [gmap string File]; the [Set<string>] of keys
      probed by the resolver is a duplicate-free list in insertion order,
      because the code iterates it and returns the first hit.
    - Numbers of the lighting heuristic are binary64 floating-point numbers,
      the kernel's primitive [float], whose operations round as the
      JavaScript ones do.  Coordinates of the panel are rationals ([Q]) and
      numbers of the camera framing are reals ([R], because of [Math.tan]
      and [Math.PI]): statements on them either involve no rounding (minimum,
      maximum, comparison), or give the code's own expressions with bounds
      wide enough to absorb the rounding, or carry the range of inputs on
      which the code's arithmetic is exact or stays within range. *)

From Stdlib Require Import String Ascii List Bool Arith NArith ZArith Lia.
From Stdlib Require Import QArith Qminmax DecimalString.
From Stdlib Require Import Reals Psatz Machin.
From Stdlib Require Floats.
From stdpp Require Import base gmap strings.
Import ListNotations.

Set Warnings "-register-all,-inexact-float".
Local Open Scope string_scope.

(** ** Exceptions *)

Inductive JsError : Type :=
| URIError (message : string).

Inductive Result (A : Type) : Type :=
| Ok (value : A)
| Throw (error : JsError).
Arguments Ok {A} value.
Arguments Throw {A} error.

Definition bindR {A B : Type} (r : Result A) (k : A -> Result B) : Result B :=
  match r with
  | Ok a => k a
  | Throw e => Throw e
  end.

Definition mapR {A B : Type} (f : A -> B) (r : Result A) : Result B :=
  bindR r (fun a => Ok (f a)).

#[global] Instance Result_bind : MBind Result := fun A B k r => bindR r k.
#[global] Instance Result_fmap : FMap Result := fun A B f r => mapR f r.
#[global] Instance Result_ret : MRet Result := fun A a => Ok a.

Definition returns {A : Type} (r : Result A) : Prop := exists a, r = Ok a.
Definition throws {A : Type} (r : Result A) : Prop := exists e, r = Throw e.

(** ** Path normalizer *)

Module PathNormalizer.

Definition uriMalformed : JsError := URIError "URI malformed".

Definition hexDigit (c : ascii) : option N :=
  let n := N_of_ascii c in
  if ((48 <=? n) && (n <=? 57))%N then Some (n - 48)%N
  else if ((65 <=? n) && (n <=? 70))%N then Some (n - 55)%N
  else if ((97 <=? n) && (n <=? 102))%N then Some (n - 87)%N
  else None.

Definition hexByte (a b : ascii) : option N :=
  match hexDigit a, hexDigit b with
  | Some h, Some l => Some (16 * h + l)%N
  | _, _ => None
  end.

(** The octet written [%ab], when [p] is the percent sign. *)
Definition escapedByte (p a b : ascii) : option N :=
  if Ascii.eqb p "%" then hexByte a b else None.

(** Number of leading one bits of an octet, as [Decode] counts them. *)
Definition leadingOnes (b : N) : nat :=
  if (b <? 128)%N then 0
  else if (b <? 192)%N then 1
  else if (b <? 224)%N then 2
  else if (b <? 240)%N then 3
  else if (b <? 248)%N then 4
  else 5.

Definition continuation (b : N) : bool := ((128 <=? b) && (b <=? 191))%N.

(** Well-formed UTF-8 sequences of two to four octets (no overlong form, no
    surrogate, nothing above U+10FFFF). *)
Definition validUtf8 (octets : list N) : bool :=
  match octets with
  | [b1; b2] => ((194 <=? b1) && (b1 <=? 223))%N && continuation b2
  | [b1; b2; b3] =>
      continuation b3 &&
      (if (b1 =? 224)%N then ((160 <=? b2) && (b2 <=? 191))%N
       else if (b1 =? 237)%N then ((128 <=? b2) && (b2 <=? 159))%N
       else ((225 <=? b1) && (b1 <=? 239))%N && continuation b2)
  | [b1; b2; b3; b4] =>
      continuation b3 && continuation b4 &&
      (if (b1 =? 240)%N then ((144 <=? b2) && (b2 <=? 191))%N
       else if (b1 =? 244)%N then ((128 <=? b2) && (b2 <=? 143))%N
       else ((241 <=? b1) && (b1 <=? 243))%N && continuation b2)
  | _ => false
  end.

Fixpoint bytesToString (octets : list N) (tail : string) : string :=
  match octets with
  | [] => tail
  | b :: bs => String (ascii_of_N b) (bytesToString bs tail)
  end.

(** The decoded character of a multi-octet escape, put before the decoded
    rest [k]; a sequence that is not UTF-8 raises. *)
Definition emit (octets : list N) (k : Result string) : Result string :=
  if validUtf8 octets then mapR (bytesToString octets) k
  else Throw uriMalformed.

(** [decodeURIComponent]: every [%XX] escape is replaced by the character it
    encodes; a [%] not followed by two hexadecimal digits, or escapes that do
    not form the UTF-8 encoding of a code point, raise [URIError]. *)
Fixpoint decodeURIComponent (s : string) : Result string :=
  match s with
  | EmptyString => Ok EmptyString
  | String c rest =>
      if Ascii.eqb c "%" then
        match rest with
        | String a (String b r1) =>
            match hexByte a b with
            | None => Throw uriMalformed
            | Some b1 =>
                match leadingOnes b1 with
                | 0 => mapR (String (ascii_of_N b1)) (decodeURIComponent r1)
                | 2 =>
                    match r1 with
                    | String p2 (String a2 (String b2 r2)) =>
                        match escapedByte p2 a2 b2 with
                        | Some o2 => emit [b1; o2] (decodeURIComponent r2)
                        | None => Throw uriMalformed
                        end
                    | _ => Throw uriMalformed
                    end
                | 3 =>
                    match r1 with
                    | String p2 (String a2 (String b2
                        (String p3 (String a3 (String b3 r3))))) =>
                        match escapedByte p2 a2 b2, escapedByte p3 a3 b3 with
                        | Some o2, Some o3 =>
                            emit [b1; o2; o3] (decodeURIComponent r3)
                        | _, _ => Throw uriMalformed
                        end
                    | _ => Throw uriMalformed
                    end
                | 4 =>
                    match r1 with
                    | String p2 (String a2 (String b2
                        (String p3 (String a3 (String b3
                          (String p4 (String a4 (String b4 r4)))))))) =>
                        match escapedByte p2 a2 b2, escapedByte p3 a3 b3,
                              escapedByte p4 a4 b4 with
                        | Some o2, Some o3, Some o4 =>
                            emit [b1; o2; o3; o4] (decodeURIComponent r4)
                        | _, _, _ => Throw uriMalformed
                        end
                    | _ => Throw uriMalformed
                    end
                | _ => Throw uriMalformed
                end
            end
        | _ => Throw uriMalformed
        end
      else mapR (String c) (decodeURIComponent rest)
  end.

(** [s.slice(n)]. *)
Fixpoint dropChars (n : nat) (s : string) : string :=
  match n, s with
  | O, _ => s
  | S _, EmptyString => EmptyString
  | S m, String _ rest => dropChars m rest
  end.

(** The part of [s] after its first slash, when there is one, together with
    the number of characters before that slash. *)
Fixpoint afterFirstSlash (s : string) : option (nat * string) :=
  match s with
  | EmptyString => None
  | String c rest =>
      if Ascii.eqb c "/" then Some (O, rest)
      else match afterFirstSlash rest with
           | Some (n, tail) => Some (S n, tail)
           | None => None
           end
  end.

(** [.replace(/^blob:[^/]+\//, '')]: after [blob:] the class [[^/]+] must
    take at least one character and stops at the first slash. *)
Definition stripBlobPrefix (s : string) : string :=
  if String.prefix "blob:" s then
    match afterFirstSlash (dropChars 5 s) with
    | Some (S _, tail) => tail
    | _ => s
    end
  else s.

(** [.replace(/^\.?\//, '')]. *)
Definition stripDotSlash (s : string) : string :=
  if String.prefix "./" s then dropChars 2 s
  else if String.prefix "/" s then dropChars 1 s
  else s.

(** [.replace(/^\//, '')]. *)
Definition stripLeadingSlash (s : string) : string :=
  if String.prefix "/" s then dropChars 1 s else s.

(** [.replace(/\\/g, '/')]. *)
Fixpoint backslashesToSlashes (s : string) : string :=
  match s with
  | EmptyString => EmptyString
  | String c rest =>
      String (if Ascii.eqb c "\" then "/"%char else c) (backslashesToSlashes rest)
  end.

(** [.split(/[?#]/)[0]]: the text before the first [?] or [#].  The array
    returned by [split] is never empty, so [?? ''] never applies. *)
Fixpoint beforeQueryOrHash (s : string) : string :=
  match s with
  | EmptyString => EmptyString
  | String c rest =>
      if Ascii.eqb c "?" || Ascii.eqb c "#" then EmptyString
      else String c (beforeQueryOrHash rest)
  end.

Definition normalizeAssetPath (path : string) : Result string :=
  decoded ← decodeURIComponent path;
  Ok (beforeQueryOrHash
        (backslashesToSlashes
           (stripLeadingSlash (stripDotSlash (stripBlobPrefix decoded))))).

(** Whether the character occurs in the string. *)
Fixpoint containsChar (c : ascii) (s : string) : bool :=
  match s with
  | EmptyString => false
  | String d rest => Ascii.eqb d c || containsChar c rest
  end.

(** Normalizing twice. *)
Definition normalizeTwice (path : string) : Result string :=
  normalizeAssetPath path ≫= normalizeAssetPath.

End PathNormalizer.

(** ** Asset index and resource resolver *)

Module AssetIndex.
Import PathNormalizer.

(** A browser [File]: its name, its [webkitRelativePath] (empty when the
    file was not picked through a directory), and the identity of the object. *)
Record File : Type := mkFile {
  name : string;
  webkitRelativePath : string;
  fileId : nat
}.

#[global] Instance File_eq_dec : EqDecision File.
Proof. solve_decision. Defined.

Definition toLowerChar (c : ascii) : ascii :=
  let n := N_of_ascii c in
  if ((65 <=? n) && (n <=? 90))%N then ascii_of_N (n + 32) else c.

Fixpoint toLowerCase (s : string) : string :=
  match s with
  | EmptyString => EmptyString
  | String c rest => String (toLowerChar c) (toLowerCase rest)
  end.

(** [s.split('/').pop()]: the text after the last slash. *)
Fixpoint basenameOf (s : string) : string :=
  match s with
  | EmptyString => EmptyString
  | String c rest =>
      if Ascii.eqb c "/" then basenameOf rest
      else if existsb (Ascii.eqb "/") (list_ascii_of_string rest)
           then basenameOf rest
           else s
  end.

Definition nonEmpty (s : string) : bool := negb (String.eqb s "").

(** The keys under which [buildAssetMap] stores one file, in the order of its
    [set] calls. *)
Definition indexKeys (file : File) : Result (list string) :=
  normalizedName ← normalizeAssetPath (name file);
  relativePath ← normalizeAssetPath (webkitRelativePath file);
  Ok ([normalizedName; toLowerCase normalizedName] ++
      (if nonEmpty relativePath then
         [relativePath; toLowerCase relativePath] ++
         (let basename := basenameOf relativePath in
          if nonEmpty basename then [basename; toLowerCase basename] else [])
       else []))%list.

Definition setAll (file : File) (keys : list string) (m : gmap string File)
  : gmap string File :=
  fold_left (fun acc key => <[key := file]> acc) keys m.

Fixpoint indexFiles (files : list File) (nextMap : gmap string File)
  : Result (gmap string File) :=
  match files with
  | [] => Ok nextMap
  | file :: rest =>
      keys ← indexKeys file;
      indexFiles rest (setAll file keys nextMap)
  end.

Definition buildAssetMap (files : list File) : Result (gmap string File) :=
  indexFiles files ∅.

(** [keys.add(value)] on a [Set]: insertion order, no duplicate. *)
Definition addToSet (value : string) (keys : list string) : list string :=
  if existsb (String.eqb value) keys then keys else (keys ++ [value])%list.

Definition addKey (value : string) (keys : list string) : Result (list string) :=
  normalized ← normalizeAssetPath value;
  if nonEmpty normalized then
    let keys1 := addToSet (toLowerCase normalized) (addToSet normalized keys) in
    let basename := basenameOf normalized in
    Ok (if nonEmpty basename
        then addToSet (toLowerCase basename) (addToSet basename keys1)
        else keys1)
  else Ok keys.

(** The first key of the set that the index knows. *)
Fixpoint probe (assetMap : gmap string File) (keys : list string) : option File :=
  match keys with
  | [] => None
  | key :: rest =>
      match assetMap !! key with
      | Some file => Some file
      | None => probe assetMap rest
      end
  end.

Section Resolver.

(** [new URL(url, window.location.href).pathname] belongs to the browser: it
    is a parameter, [None] when the constructor raises. *)
Variable urlPathname : string -> option string.

(** An exception raised inside the [try] block is swallowed; the keys
    collected from the raw reference stay. *)
Definition candidateKeys (url : string) : Result (list string) :=
  keys ← addKey url [];
  Ok (match urlPathname url with
      | Some pathname =>
          match addKey pathname keys with
          | Ok keys' => keys'
          | Throw _ => keys
          end
      | None => keys
      end).

Definition findAssetFileByUrl (assetMap : gmap string File) (url : string)
  : Result (option File) :=
  keys ← candidateKeys url;
  Ok (probe assetMap keys).

(** [buildAssetMap] followed by [findAssetFileByUrl]. *)
Definition resolveIn (files : list File) (url : string) : Result (option File) :=
  assetMap ← buildAssetMap files;
  findAssetFileByUrl assetMap url.

End Resolver.

(** The keys the three robot references probe before any key derived from
    the parsed URL. *)
Definition robotProbeKeys : list string :=
  ["TEXTURES/ROBOT.BIN"; "textures/robot.bin"; "ROBOT.BIN"; "robot.bin"].

(** [other] puts none of [keys] into the index. *)
Definition contributesNone (keys : list string) (other : File) : Prop :=
  forall ks key, indexKeys other = Ok ks -> In key keys -> ~ In key ks.

(** The pathname the [URL] constructor gives a relative reference without
    scheme, dot-dot segment, query or fragment, for a document served from
    the root of its origin. *)
Definition originRoot (url : string) : option string :=
  Some ("/" ++ stripDotSlash url).

Definition robotFile : File := mkFile "Robot.BIN" "textures/Robot.BIN" 0.
Definition shadowFile : File := mkFile "robot.bin" "" 1.
Definition coverFile : File := mkFile "Cover.PNG" "textures/Cover.PNG" 2.

End AssetIndex.

(** ** The viewer session: state, callbacks and events *)

Module Session.
Import PathNormalizer AssetIndex.

(** An object URL is named by the serial number under which
    [URL.createObjectURL] minted it: the browser never returns the same URL
    twice. *)
Definition ObjectUrl : Type := nat.

(** The loaded scene object is opaque here; its geometry and materials are
    the subject of the framing and lighting modules. *)
Definition Model : Type := nat.

(** A value of the parsed glTF document, as far as [toExtensionList] looks
    at it: an array of items, or something that is not an array. *)
Inductive JsonItem : Type :=
| JString (s : string)
| JNumber (n : Z)
| JOther.

Inductive Json : Type :=
| JArray (items : list JsonItem)
| JNotArray (item : JsonItem).

Record ParserJson : Type := mkParserJson {
  extensionsRequired : option Json;
  extensionsUsed : option Json
}.

Record GLTF : Type := mkGLTF {
  gltfScene : Model;
  parserJson : option ParserJson
}.

(** The value handed to the error callback. *)
Inductive Thrown : Type :=
| ThrownError (message : string)
| ThrownString (s : string)
| ThrownObject (tag : string)
| ThrownBoolean (b : bool)
| ThrownNull
| ThrownUndefined.

(** [String(error)]. *)
Definition stringOf (error : Thrown) : string :=
  match error with
  | ThrownError message => "Error: " ++ message
  | ThrownString s => s
  | ThrownObject tag => "[object " ++ tag ++ "]"
  | ThrownBoolean true => "true"
  | ThrownBoolean false => "false"
  | ThrownNull => "null"
  | ThrownUndefined => "undefined"
  end.

(** The module-level variables and refs of the component. *)
Record Viewer : Type := mkViewer {
  scene : bool;                       (* scene !== null *)
  gltfLoader : bool;                  (* gltfLoader !== null *)
  activeModel : option Model;
  hasModel : bool;
  isLoading : bool;
  statusText : string;
  requiredExtensions : list string;
  usedExtensions : list string;
  assetMap : gmap string File;
  trackedObjectUrls : list ObjectUrl; (* a Set, in insertion order *)
  transientResourceUrls : list ObjectUrl
}.

(** Who asked for an object URL: the load cycle is named by its primary URL. *)
Inductive Owner : Type :=
| Primary
| Transient (generation : ObjectUrl).

Record Minted : Type := mkMinted {
  blob : File;
  owner : Owner
}.

(** The browser's blob URL store: the URLs minted so far, the n-th entry for
    URL n, and every call of [URL.revokeObjectURL]. *)
Record Browser : Type := mkBrowser {
  objectUrls : list Minted;
  revocations : list ObjectUrl
}.

(** The closure registered by one [gltfLoader.load] call. *)
Record PendingLoad : Type := mkPendingLoad {
  mainUrl : ObjectUrl;
  mainFile : File;
  fileCount : nat
}.

(** The loader side: whether the loading manager with its URL modifier
    exists, the top-level loads not yet settled, the sub-resource requests
    still reading an object URL (with the load cycle that issued them), and
    the zero-delay timers armed by [loadingManager.onLoad]. *)
Record Loader : Type := mkLoader {
  managerInstalled : bool;
  pendingLoads : list PendingLoad;
  inFlight : list (ObjectUrl * ObjectUrl);
  timers : nat
}.

Record World : Type := mkWorld {
  viewer : Viewer;
  browser : Browser;
  loader : Loader
}.

Definition initialViewer : Viewer :=
  {| scene := false; gltfLoader := false; activeModel := None;
     hasModel := false; isLoading := false;
     statusText := "拖拽模型文件，或点击右下角“选择文件”开始预览";
     requiredExtensions := []; usedExtensions := [];
     assetMap := ∅; trackedObjectUrls := []; transientResourceUrls := [] |}.

Definition initialWorld : World :=
  {| viewer := initialViewer;
     browser := {| objectUrls := []; revocations := [] |};
     loader := {| managerInstalled := false; pendingLoads := [];
                  inFlight := []; timers := 0 |} |}.

(** *** Field updates *)

Definition withStatus (text : string) (v : Viewer) : Viewer :=
  mkViewer (scene v) (gltfLoader v) (activeModel v) (hasModel v) (isLoading v)
    text (requiredExtensions v) (usedExtensions v) (assetMap v)
    (trackedObjectUrls v) (transientResourceUrls v).

Definition withLoading (flag : bool) (v : Viewer) : Viewer :=
  mkViewer (scene v) (gltfLoader v) (activeModel v) (hasModel v) flag
    (statusText v) (requiredExtensions v) (usedExtensions v) (assetMap v)
    (trackedObjectUrls v) (transientResourceUrls v).

Definition withAssetMap (m : gmap string File) (v : Viewer) : Viewer :=
  mkViewer (scene v) (gltfLoader v) (activeModel v) (hasModel v) (isLoading v)
    (statusText v) (requiredExtensions v) (usedExtensions v) m
    (trackedObjectUrls v) (transientResourceUrls v).

Definition withTracked (urls : list ObjectUrl) (v : Viewer) : Viewer :=
  mkViewer (scene v) (gltfLoader v) (activeModel v) (hasModel v) (isLoading v)
    (statusText v) (requiredExtensions v) (usedExtensions v) (assetMap v)
    urls (transientResourceUrls v).

Definition withTransient (urls : list ObjectUrl) (v : Viewer) : Viewer :=
  mkViewer (scene v) (gltfLoader v) (activeModel v) (hasModel v) (isLoading v)
    (statusText v) (requiredExtensions v) (usedExtensions v) (assetMap v)
    (trackedObjectUrls v) urls.

Definition withExtensions (required used : list string) (v : Viewer) : Viewer :=
  mkViewer (scene v) (gltfLoader v) (activeModel v) (hasModel v) (isLoading v)
    (statusText v) required used (assetMap v)
    (trackedObjectUrls v) (transientResourceUrls v).

Definition withModel (model : option Model) (shown : bool) (v : Viewer) : Viewer :=
  mkViewer (scene v) (gltfLoader v) model shown (isLoading v)
    (statusText v) (requiredExtensions v) (usedExtensions v) (assetMap v)
    (trackedObjectUrls v) (transientResourceUrls v).

Definition withSceneAndLoader (alive : bool) (v : Viewer) : Viewer :=
  mkViewer alive alive (activeModel v) (hasModel v) (isLoading v)
    (statusText v) (requiredExtensions v) (usedExtensions v) (assetMap v)
    (trackedObjectUrls v) (transientResourceUrls v).

Definition onViewer (f : Viewer -> Viewer) (w : World) : World :=
  mkWorld (f (viewer w)) (browser w) (loader w).

Definition onLoader (f : Loader -> Loader) (w : World) : World :=
  mkWorld (viewer w) (browser w) (f (loader w)).

(** *** Browser primitives *)

Definition createObjectURL (who : Owner) (file : File) (w : World)
  : ObjectUrl * World :=
  let b := browser w in
  (List.length (objectUrls b),
   mkWorld (viewer w)
     (mkBrowser (objectUrls b ++ [mkMinted file who]) (revocations b))
     (loader w)).

Definition revokeObjectURL (url : ObjectUrl) (w : World) : World :=
  let b := browser w in
  mkWorld (viewer w) (mkBrowser (objectUrls b) (revocations b ++ [url]))
    (loader w).

(** *** Handle bookkeeping of the component *)

Definition hasUrl (url : ObjectUrl) (urls : list ObjectUrl) : bool :=
  existsb (Nat.eqb url) urls.

Definition addTrackedUrl (url : ObjectUrl) (w : World) : World :=
  onViewer (fun v =>
    withTracked (if hasUrl url (trackedObjectUrls v)
                 then trackedObjectUrls v
                 else trackedObjectUrls v ++ [url]) v) w.

Definition revokeTrackedUrl (url : ObjectUrl) (w : World) : World :=
  if hasUrl url (trackedObjectUrls (viewer w)) then
    onViewer (fun v =>
      withTracked (List.filter (fun u => negb (Nat.eqb url u)) (trackedObjectUrls v)) v)
      (revokeObjectURL url w)
  else w.

Definition revokeEach (urls : list ObjectUrl) (w : World) : World :=
  fold_left (fun acc url => revokeObjectURL url acc) urls w.

Definition revokeTransientResourceUrls (w : World) : World :=
  onViewer (withTransient [])
    (revokeEach (transientResourceUrls (viewer w)) w).

(** *** Extension metadata *)

Definition toExtensionList (extensions : option Json) : list string :=
  match extensions with
  | Some (JArray items) =>
      flat_map (fun item => match item with
                            | JString extension => [extension]
                            | _ => []
                            end) items
  | _ => []
  end.

Definition extractExtensionInfo (gltf : GLTF) : list string * list string :=
  match parserJson gltf with
  | Some json => (toExtensionList (extensionsRequired json),
                  toExtensionList (extensionsUsed json))
  | None => ([], [])
  end.

(** *** Resource resolver *)

Inductive Resolved : Type :=
| Mapped (url : ObjectUrl)
| Unchanged (url : string).

Definition isDataUri (url : string) : bool :=
  String.prefix "data:" (toLowerCase url).

Definition mapIsEmpty (m : gmap string File) : bool :=
  bool_decide (m = ∅).

Section WithBrowserUrl.

Variable urlPathname : string -> option string.

(** [generation] records which load cycle issued the request; the code does
    not see it. *)
Definition resolveAssetUrl (generation : ObjectUrl) (url : string) (w : World)
  : Result (Resolved * World) :=
  if mapIsEmpty (assetMap (viewer w)) || isDataUri url then Ok (Unchanged url, w)
  else
    found ← findAssetFileByUrl urlPathname (assetMap (viewer w)) url;
    match found with
    | None => Ok (Unchanged url, w)
    | Some file =>
        let (mappedUrl, w1) := createObjectURL (Transient generation) file w in
        Ok (Mapped mappedUrl,
            onViewer (fun v =>
              withTransient (transientResourceUrls v ++ [mappedUrl]) v) w1)
    end.

(** *** Loading a file set *)

Definition endsWith (s suffix : string) : bool :=
  (String.length suffix <=? String.length s)%nat &&
  String.eqb (dropChars (String.length s - String.length suffix) s) suffix.

Definition isModelFile (file : File) : bool :=
  let lower := toLowerCase (name file) in
  endsWith lower ".glb" || endsWith lower ".gltf".

Definition clearModel (v : Viewer) : Viewer :=
  if scene v && bool_decide (activeModel v <> None) then
    withExtensions [] [] (withModel None false v)
  else withExtensions [] [] v.

Definition noModelFileStatus : string := "请至少提供一个 .glb 或 .gltf 文件".
Definition loadingStatus (file : File) : string :=
  "正在加载 " ++ name file ++ "...".
Definition decimal (n : nat) : string :=
  NilEmpty.string_of_uint (Nat.to_uint n).
Definition loadedStatus (file : File) (count : nat) : string :=
  "已加载 " ++ name file ++ "（共 " ++ decimal count ++ " 个文件）".
Definition failurePrefix : string := "模型加载失败：".

(** [loadModelFromFileSet], up to and including the call of
    [gltfLoader.load], which registers the two callbacks and returns. *)
Definition loadModelFromFileSet (files : list File) (w : World) : Result World :=
  if negb (gltfLoader (viewer w)) || negb (scene (viewer w)) then Ok w
  else
    match find isModelFile files with
    | None => Ok (onViewer (withStatus noModelFileStatus) w)
    | Some main =>
        nextMap ← buildAssetMap files;
        let w1 := onViewer (withAssetMap nextMap) w in
        let (url, w2) := createObjectURL Primary main w1 in
        let w3 := addTrackedUrl url w2 in
        let w4 := onViewer (fun v =>
                    withStatus (loadingStatus main) (withLoading true v)) w3 in
        Ok (onLoader (fun l =>
              mkLoader (managerInstalled l)
                (pendingLoads l ++ [mkPendingLoad url main (List.length files)])
                (inFlight l) (timers l)) w4)
    end.

(** The success callback of [gltfLoader.load].  [frameModel] and
    [applyAdaptiveSceneLook] act on the camera, the controls, the lights and
    the renderer, which this record does not carry. *)
Definition onLoadSuccess (p : PendingLoad) (gltf : GLTF) (w : World) : World :=
  if negb (scene (viewer w)) then w
  else
    let w1 := revokeTransientResourceUrls (revokeTrackedUrl (mainUrl p) w) in
    let info := extractExtensionInfo gltf in
    onViewer (fun v =>
      withStatus (loadedStatus (mainFile p) (fileCount p))
        (withLoading false
           (withExtensions (fst info) (snd info)
              (withModel (Some (gltfScene gltf)) true (clearModel v))))) w1.

Definition errorMessage (error : Thrown) : string :=
  match error with
  | ThrownError message => message
  | other => stringOf other
  end.

(** The error callback of [gltfLoader.load]. *)
Definition onLoadError (p : PendingLoad) (error : Thrown) (w : World) : World :=
  let w1 := revokeTransientResourceUrls (revokeTrackedUrl (mainUrl p) w) in
  onViewer (fun v =>
    withStatus (failurePrefix ++ errorMessage error) (withLoading false v)) w1.

(** [onMounted], for the fields of this model. *)
Definition onMounted (w : World) : World :=
  onLoader (fun l => mkLoader true (pendingLoads l) (inFlight l) (timers l))
    (onViewer (withSceneAndLoader true) w).

(** [onBeforeUnmount]. *)
Definition onBeforeUnmount (w : World) : World :=
  let w1 := onViewer clearModel w in
  let w2 := revokeTransientResourceUrls w1 in
  let w3 := revokeEach (trackedObjectUrls (viewer w2)) w2 in
  onViewer (fun v => withSceneAndLoader false (withTracked [] v)) w3.

(** *** Events of the single event loop *)

Inductive Event : Type :=
| Mounted
| FilesProvided (files : list File)
| SubresourceRequested (generation : ObjectUrl) (url : string)
| SubresourceSettled (generation : ObjectUrl) (url : ObjectUrl)
| ManagerLoaded
| TimerFired
| LoadSucceeded (generation : ObjectUrl) (gltf : GLTF)
| LoadFailed (generation : ObjectUrl) (error : Thrown)
| BeforeUnmount.

Definition isGeneration (generation : ObjectUrl) (p : PendingLoad) : bool :=
  Nat.eqb generation (mainUrl p).

Definition settle (generation : ObjectUrl) (w : World) : World :=
  onLoader (fun l =>
    mkLoader (managerInstalled l)
      (List.filter (fun p => negb (isGeneration generation p)) (pendingLoads l))
      (inFlight l) (timers l)) w.

Definition samePair (a b : ObjectUrl * ObjectUrl) : bool :=
  Nat.eqb (fst a) (fst b) && Nat.eqb (snd a) (snd b).

(** One turn of the event loop.  An exception leaves the state as it was:
    both functions that can raise do so before their first assignment. *)
Definition step (w : World) (e : Event) : World :=
  match e with
  | Mounted => onMounted w
  | FilesProvided files =>
      match files with
      | [] => w
      | _ => match loadModelFromFileSet files w with
             | Ok w' => w'
             | Throw _ => w
             end
      end
  | SubresourceRequested generation url =>
      if managerInstalled (loader w) then
        match resolveAssetUrl generation url w with
        | Ok (Mapped mapped, w') =>
            onLoader (fun l =>
              mkLoader (managerInstalled l) (pendingLoads l)
                (inFlight l ++ [(generation, mapped)]) (timers l)) w'
        | Ok (Unchanged _, w') => w'
        | Throw _ => w
        end
      else w
  | SubresourceSettled generation url =>
      onLoader (fun l =>
        mkLoader (managerInstalled l) (pendingLoads l)
          (List.filter (fun r => negb (samePair (generation, url) r)) (inFlight l))
          (timers l)) w
  | ManagerLoaded =>
      if managerInstalled (loader w) then
        onLoader (fun l =>
          mkLoader (managerInstalled l) (pendingLoads l) (inFlight l)
            (S (timers l))) w
      else w
  | TimerFired =>
      match timers (loader w) with
      | O => w
      | S n =>
          revokeTransientResourceUrls
            (onLoader (fun l =>
               mkLoader (managerInstalled l) (pendingLoads l) (inFlight l) n) w)
      end
  | LoadSucceeded generation gltf =>
      match find (isGeneration generation) (pendingLoads (loader w)) with
      | Some p => onLoadSuccess p gltf (settle generation w)
      | None => w
      end
  | LoadFailed generation error =>
      match find (isGeneration generation) (pendingLoads (loader w)) with
      | Some p => onLoadError p error (settle generation w)
      | None => w
      end
  | BeforeUnmount => onBeforeUnmount w
  end.

Definition run (w : World) (events : list Event) : World :=
  fold_left step events w.

End WithBrowserUrl.

(** *** Predicates of the statements *)

Definition mintedCount (w : World) : nat := List.length (objectUrls (browser w)).

Definition occurrences (url : ObjectUrl) (urls : list ObjectUrl) : nat :=
  count_occ Nat.eq_dec urls url.

(** How many times [URL.revokeObjectURL] was called on the URL. *)
Definition releaseCount (url : ObjectUrl) (w : World) : nat :=
  occurrences url (revocations (browser w)).

Definition ownerOf (url : ObjectUrl) (w : World) : option Owner :=
  option_map owner (nth_error (objectUrls (browser w)) url).

(** Every minted URL is in exactly one place: the tracked set, the transient
    pool, or the revocation log, and in that place once. *)
Definition accounted (w : World) : Prop :=
  forall url,
    occurrences url (trackedObjectUrls (viewer w)) +
    occurrences url (transientResourceUrls (viewer w)) +
    releaseCount url w =
    if (url <? mintedCount w)%nat then 1 else 0.

Definition pendingMinted (w : World) : Prop :=
  forall p, In p (pendingLoads (loader w)) -> (mainUrl p < mintedCount w)%nat.

Definition consistent (w : World) : Prop := accounted w /\ pendingMinted w.

(** The loader and the scene exist: the viewer is mounted. *)
Definition viewerReady (w : World) : Prop :=
  gltfLoader (viewer w) = true /\ scene (viewer w) = true.

Definition isPending (generation : ObjectUrl) (w : World) : Prop :=
  exists p, find (isGeneration generation) (pendingLoads (loader w)) = Some p.

(** A transient URL of a load cycle that has not settled has been revoked
    while a request of that cycle still reads it. *)
Definition strayRelease (w : World) : Prop :=
  exists generation url,
    isPending generation w /\
    ownerOf url w = Some (Transient generation) /\
    In (generation, url) (inFlight (loader w)) /\
    (0 < releaseCount url w)%nat.

(** *** Sample inputs *)

Definition boxGlb : File := mkFile "Box.GLB" "" 0.
Definition sceneGltf : File := mkFile "scene.gltf" "" 1.
Definition woodPng : File := mkFile "wood.png" "" 2.
Definition percentGlb : File := mkFile "100%.glb" "" 0.
Definition percentPng : File := mkFile "50%.png" "" 1.
Definition notesTxt : File := mkFile "notes.txt" "" 3.

(** A self-contained model is dropped, then a glTF with its texture before
    the first load has settled; the second load asks for the texture, then
    the first load succeeds. *)
Definition overlappingLoads : list Event :=
  [Mounted;
   FilesProvided [boxGlb];
   FilesProvided [sceneGltf; woodPng];
   SubresourceRequested 1 "wood.png";
   LoadSucceeded 0 (mkGLTF 7 None)].

(** A load is started and the view is left before the loader answers. *)
Definition leftWhileLoading : World :=
  onBeforeUnmount
    (match loadModelFromFileSet [boxGlb] (onMounted initialWorld) with
     | Ok w => w
     | Throw _ => initialWorld
     end).

(** A glTF load that has asked for one texture. *)
Definition textureRequested : list Event :=
  [Mounted; FilesProvided [sceneGltf; woodPng]; SubresourceRequested 0 "wood.png"].

End Session.


(** ** Adaptive scene look *)

Module Look.
Import PrimFloat.
Local Open Scope float_scope.

(** A JavaScript number is an IEEE 754 binary64 value: the kernel's [float],
    with its round-to-nearest-even [+], [*], [/] and its comparison [<?],
    which is false as soon as one side is not a number. *)
Record Color : Type := mkColor { red : float; green : float; blue : float }.

(** Only a [MeshStandardMaterial] carries the base colour and the metalness
    the heuristic reads. *)
Inductive Material : Type :=
| MeshStandardMaterial (color : Color) (metalness : float)
| OtherMaterial.

(** [child.material] of a mesh is one material or an array of them. *)
Inductive NodeKind : Type :=
| Mesh (materials : list Material)
| NotMesh.

Inductive Object3D : Type :=
| Object (kind : NodeKind) (children : list Object3D).

(** [model.traverse]: the node itself, then its descendants. *)
Fixpoint traverse (o : Object3D) : list NodeKind :=
  match o with
  | Object kind children => kind :: flat_map traverse children
  end.

Definition materialsOf (kind : NodeKind) : list Material :=
  match kind with
  | Mesh materials => materials
  | NotMesh => []
  end.

(** [c.r * 0.2126 + c.g * 0.7152 + c.b * 0.0722], added from the left. *)
Definition luminanceOf (c : Color) : float :=
  red c * 0.2126 + green c * 0.7152 + blue c * 0.0722.

(** The three accumulators of the traversal; the counter is a number like
    the two sums. *)
Record Tally : Type := mkTally {
  materialCount : float;
  luminanceSum : float;
  metallicSum : float
}.

Definition sample (t : Tally) (m : Material) : Tally :=
  match m with
  | MeshStandardMaterial c metalness =>
      mkTally (materialCount t + 1) (luminanceSum t + luminanceOf c)
        (metallicSum t + metalness)
  | OtherMaterial => t
  end.

Definition tally (model : Object3D) : Tally :=
  fold_left sample (flat_map materialsOf (traverse model)) (mkTally 0 0 0).

(** [materialCount > 0 ? luminanceSum / materialCount : 0.55]. *)
Definition averageLuminance (t : Tally) : float :=
  if 0 <? materialCount t then luminanceSum t / materialCount t else 0.55.

(** [materialCount > 0 ? metallicSum / materialCount : 0]. *)
Definition averageMetalness (t : Tally) : float :=
  if 0 <? materialCount t then metallicSum t / materialCount t else 0.

(** What the function assigns: [scene.background], the renderer's
    [toneMappingExposure] and the two light intensities. *)
Record SceneLook : Type := mkSceneLook {
  background : N;
  exposure : float;
  fillIntensity : float;
  keyIntensity : float
}.

Definition neutralLook : SceneLook := mkSceneLook 0xe8e8e8 1 1.1 1.1.
Definition lowLuminanceLook : SceneLook := mkSceneLook 0xf0f0ed 1.12 1.2 1.25.
Definition highLuminanceLook : SceneLook := mkSceneLook 0x242734 0.92 0.95 1.45.
Definition metalLook : SceneLook := mkSceneLook 0xdfe5ec 1.15 1.18 1.55.

Definition lowThreshold : float := 0.34.
Definition highThreshold : float := 0.78.
Definition metalThreshold : float := 0.45.

Definition chooseLook (luminance metalness : float) : SceneLook :=
  if luminance <? lowThreshold then lowLuminanceLook
  else if highThreshold <? luminance then highLuminanceLook
  else if metalThreshold <? metalness then metalLook
  else neutralLook.

(** [current] is [None] when the scene, the renderer or one of the lights is
    missing: the function then returns at once. *)
Definition applyAdaptiveSceneLook (model : Object3D) (current : option SceneLook)
  : option SceneLook :=
  match current with
  | None => None
  | Some _ =>
      let t := tally model in
      Some (chooseLook (averageLuminance t) (averageMetalness t))
  end.

(** The perceived brightness of a [0xRRGGBB] background, as an exact
    rational with the weights of the heuristic; a tone is dark below one
    half. *)
Definition channel (hex : N) (shift : N) : Q :=
  (inject_Z (Z.of_N (N.land (N.shiftr hex shift) 255)) / 255)%Q.

Definition toneLuminance (hex : N) : Q :=
  ((2126 # 10000) * channel hex 16 + (7152 # 10000) * channel hex 8 +
   (722 # 10000) * channel hex 0)%Q.

Definition isDarkTone (hex : N) : Prop := (toneLuminance hex < 1 # 2)%Q.
Definition isLightTone (hex : N) : Prop := (1 # 2 < toneLuminance hex)%Q.

(** The luminance and the metalness of the materials the traversal samples,
    in its order. *)
Definition sampleOf (m : Material) : list (float * float) :=
  match m with
  | MeshStandardMaterial c metalness => [(luminanceOf c, metalness)]
  | OtherMaterial => []
  end.

Definition samples (model : Object3D) : list (float * float) :=
  flat_map sampleOf (flat_map materialsOf (traverse model)).

(** The running sum [((0 + x1) + x2) + ...] and the running count
    [((0 + 1) + 1) + ...] in binary64, and their quotient. *)
Definition sumInOrder (l : list float) : float := fold_left add l 0.

Definition countOf {A : Type} (l : list A) : float :=
  fold_left (fun count _ => count + 1) l 0.

Definition meanInOrder (l : list float) : float := sumInOrder l / countOf l.

(** Sample models: one black and one white non-metallic material, and grey
    materials of a given level. *)
Definition blackModel : Object3D :=
  Object NotMesh [Object (Mesh [MeshStandardMaterial (mkColor 0 0 0) 0]) []].
Definition whiteModel : Object3D :=
  Object NotMesh [Object (Mesh [MeshStandardMaterial (mkColor 1 1 1) 0]) []].

Definition gray (level metalness : float) : Material :=
  MeshStandardMaterial (mkColor level level level) metalness.

End Look.

(** ** Binary64 numbers *)

Module BinaryFloat.
Import SpecFloat FloatOps.

(** The exponent of the smallest subnormal numbers of binary64. *)
Definition lowestExponent : Z := SpecFloat.emin prec emax.

(** A positive number or [+Infinity]. *)
Definition positiveNumber (x : spec_float) : bool :=
  match x with
  | S754_finite false _ _ | S754_infinity false => true
  | _ => false
  end.

End BinaryFloat.

(** ** Camera auto-framing *)

Module Framing.

Local Open Scope R_scope.

Record Vector3 : Type := mkVector3 { vx : R; vy : R; vz : R }.

Record Box3 : Type := mkBox3 { boxMin : Vector3; boxMax : Vector3 }.

Record Camera : Type := mkCamera {
  fov : R;                (* vertical field of view, in degrees *)
  position : Vector3;
  near : R;
  far : R
}.

Record Controls : Type := mkControls {
  target : Vector3;
  minDistance : R;
  maxDistance : R
}.

Definition ltb (a b : R) : bool := if Rlt_dec a b then true else false.

(** [Box3.isEmpty], [getSize] and [getCenter] of three.js. *)
Definition isEmpty (box : Box3) : bool :=
  ltb (vx (boxMax box)) (vx (boxMin box)) ||
  ltb (vy (boxMax box)) (vy (boxMin box)) ||
  ltb (vz (boxMax box)) (vz (boxMin box)).

Definition getSize (box : Box3) : Vector3 :=
  if isEmpty box then mkVector3 0 0 0
  else mkVector3 (vx (boxMax box) - vx (boxMin box))
                 (vy (boxMax box) - vy (boxMin box))
                 (vz (boxMax box) - vz (boxMin box)).

Definition getCenter (box : Box3) : Vector3 :=
  if isEmpty box then mkVector3 0 0 0
  else mkVector3 ((vx (boxMin box) + vx (boxMax box)) * 0.5)
                 ((vy (boxMin box) + vy (boxMax box)) * 0.5)
                 ((vz (boxMin box) + vz (boxMax box)) * 0.5).

Definition sub (a b : Vector3) : Vector3 :=
  mkVector3 (vx a - vx b) (vy a - vy b) (vz a - vz b).

(** [Math.max(size.x, size.y, size.z) || 1]. *)
Definition maxDimension (box : Box3) : R :=
  let size := getSize box in
  let largest := Rmax (vx size) (Rmax (vy size) (vz size)) in
  if Req_dec_T largest 0 then 1 else largest.

Definition fovRadians (camera : Camera) : R := fov camera * PI / 180.

Definition distance (box : Box3) (camera : Camera) : R :=
  maxDimension box / (2 * tan (fovRadians camera / 2)).

(** The state [frameModel] writes: the model's position, the camera and the
    orbit controls. *)
Record Rig : Type := mkRig {
  modelPosition : Vector3;
  camera : Camera;
  controls : Controls
}.

(** [frameModel], given the box [setFromObject] computed for the model;
    [None] stands for a missing camera or missing controls. *)
Definition frameModel (box : Box3) (modelAt : Vector3)
    (rig : option (Camera * Controls)) : option Rig :=
  match rig with
  | None => None
  | Some (cam, _) =>
      let d := distance box cam in
      Some (mkRig (sub modelAt (getCenter box))
              (mkCamera (fov cam)
                 (mkVector3 (d * 1.2) (d * 0.8) (d * 1.2))
                 (Rmax (d / 120) 0.01)
                 (Rmax (d * 120) 120))
              (mkControls (mkVector3 0 0 0) (d * 0.2) (d * 8)))
  end.

Definition largestExtent (box : Box3) : R :=
  Rmax (vx (getSize box)) (Rmax (vy (getSize box)) (vz (getSize box))).

Definition unitBox : Box3 := mkBox3 (mkVector3 (-1) (-1) (-1)) (mkVector3 1 1 1).

(** The camera [onMounted] creates: [new PerspectiveCamera(55, 1, 0.1, 5000)]
    at [(6, 4, 6)]. *)
Definition mountedCamera : Camera := mkCamera 55 (mkVector3 6 4 6) 0.1 5000.

End Framing.

(** ** Draggable information panel *)

Module Panel.

Local Open Scope Q_scope.

(** [Math.min(Math.max(value, min), max)]. *)
Definition clampNumber (value min max : Q) : Q := Qmin (Qmax value min) max.

(** What the code reads from an element: the corner of its bounding
    rectangle, and its extent ([clientWidth] and [clientHeight] of the host,
    [offsetWidth] and [offsetHeight] of the panel). *)
Record Element : Type := mkElement {
  rectLeft : Q;
  rectTop : Q;
  extentWidth : Q;
  extentHeight : Q
}.

Record Point : Type := mkPoint { px : Q; py : Q }.

(** The template refs: [None] when the element is not rendered. *)
Record Dom : Type := mkDom {
  hostElement : option Element;
  panelElement : option Element
}.

Definition margin : Q := 8.

Definition clampPanelPosition (dom : Dom) (position : Point) : Point :=
  match hostElement dom, panelElement dom with
  | Some host, Some panel =>
      let maxX := Qmax (extentWidth host - extentWidth panel - margin) margin in
      let maxY := Qmax (extentHeight host - extentHeight panel - margin) margin in
      mkPoint (clampNumber (px position) margin maxX)
              (clampNumber (py position) margin maxY)
  | _, _ => position
  end.

Record PointerEvent : Type := mkPointerEvent {
  button : Z;
  pointerId : Z;
  clientX : Q;
  clientY : Q
}.

(** The panel's refs and variables; [listening] says whether the three
    window listeners of the drag are registered. *)
Record PanelState : Type := mkPanelState {
  panelPosition : Point;
  isPanelCollapsed : bool;
  isPanelDragging : bool;
  panelPointerId : option Z;
  panelPointerOffsetX : Q;
  panelPointerOffsetY : Q;
  listening : bool
}.

Definition initialPanel : PanelState :=
  mkPanelState (mkPoint 16 16) false false None 0 0 false.

Definition capturedBy (event : PointerEvent) (s : PanelState) : bool :=
  match panelPointerId s with
  | Some id => Z.eqb id (pointerId event)
  | None => false
  end.

Definition withPosition (position : Point) (s : PanelState) : PanelState :=
  mkPanelState position (isPanelCollapsed s) (isPanelDragging s)
    (panelPointerId s) (panelPointerOffsetX s) (panelPointerOffsetY s)
    (listening s).

Definition onPanelPointerMove (event : PointerEvent) (dom : Dom)
    (s : PanelState) : PanelState :=
  if negb (capturedBy event s) then s
  else
    match hostElement dom, panelElement dom with
    | Some host, Some _ =>
        let nextX := clientX event - rectLeft host - panelPointerOffsetX s in
        let nextY := clientY event - rectTop host - panelPointerOffsetY s in
        withPosition (clampPanelPosition dom (mkPoint nextX nextY)) s
    | _, _ => s
    end.

Definition onPanelPointerUp (event : PointerEvent) (s : PanelState) : PanelState :=
  if negb (capturedBy event s) then s
  else
    mkPanelState (panelPosition s) (isPanelCollapsed s) false None
      (panelPointerOffsetX s) (panelPointerOffsetY s) false.

Definition onPanelPointerDown (event : PointerEvent) (dom : Dom)
    (s : PanelState) : PanelState :=
  if negb (Z.eqb (button event) 0) then s
  else
    match panelElement dom with
    | None => s
    | Some panel =>
        mkPanelState (panelPosition s) (isPanelCollapsed s) true
          (Some (pointerId event))
          (clientX event - rectLeft panel)
          (clientY event - rectTop panel)
          true
    end.

(** [togglePanelCollapsed]; [dom] is the layout after [nextTick]. *)
Definition togglePanelCollapsed (dom : Dom) (s : PanelState) : PanelState :=
  mkPanelState (clampPanelPosition dom (panelPosition s))
    (negb (isPanelCollapsed s)) (isPanelDragging s) (panelPointerId s)
    (panelPointerOffsetX s) (panelPointerOffsetY s) (listening s).

(** [removePanelDragListeners], as [onBeforeUnmount] calls it. *)
Definition removePanelDragListeners (s : PanelState) : PanelState :=
  mkPanelState (panelPosition s) (isPanelCollapsed s) (isPanelDragging s)
    (panelPointerId s) (panelPointerOffsetX s) (panelPointerOffsetY s) false.

Inductive PanelEvent : Type :=
| PointerDown (event : PointerEvent) (dom : Dom)
| PointerMove (event : PointerEvent) (dom : Dom)
| PointerUp (event : PointerEvent)
| ToggleCollapsed (dom : Dom)
| Reclamp (dom : Dom)            (* resize observer, first tick after mount *)
| ListenersRemoved.              (* view teardown *)

(** The window delivers [pointermove], [pointerup] and [pointercancel] to
    the handlers only while they are registered. *)
Definition panelStep (s : PanelState) (e : PanelEvent) : PanelState :=
  match e with
  | PointerDown event dom => onPanelPointerDown event dom s
  | PointerMove event dom =>
      if listening s then onPanelPointerMove event dom s else s
  | PointerUp event => if listening s then onPanelPointerUp event s else s
  | ToggleCollapsed dom => togglePanelCollapsed dom s
  | Reclamp dom => withPosition (clampPanelPosition dom (panelPosition s)) s
  | ListenersRemoved => removePanelDragListeners s
  end.

Definition panelRun (s : PanelState) (events : list PanelEvent) : PanelState :=
  fold_left panelStep events s.

(** The largest admissible coordinate for a host and a panel extent. *)
Definition upperBound (hostExtent panelExtent : Q) : Q :=
  Qmax (hostExtent - panelExtent - margin) margin.

Definition withinBounds (dom : Dom) (position : Point) : Prop :=
  match hostElement dom, panelElement dom with
  | Some host, Some panel =>
      margin <= px position <= upperBound (extentWidth host) (extentWidth panel) /\
      margin <= py position <= upperBound (extentHeight host) (extentHeight panel)
  | _, _ => True
  end.

Definition samePoint (a b : Point) : Prop := px a == px b /\ py a == py b.

(** The dragging flag is set exactly while a pointer is captured, and the
    window listeners are registered only during a drag. *)
Definition panelConsistent (s : PanelState) : Prop :=
  (isPanelDragging s = true <-> panelPointerId s <> None) /\
  (listening s = true -> isPanelDragging s = true).

(** A whole number of CSS pixels, of magnitude at most 2^30.  Sums and
    differences of a few such values are whole numbers below 2^53, which the
    code's binary64 arithmetic computes without rounding. *)
Definition wholePixels (q : Q) : bool :=
  Pos.eqb (Qden (Qred q)) 1 && Z.leb (Z.abs (Qnum (Qred q))) 1073741824.

Definition wholeElement (element : Element) : bool :=
  wholePixels (rectLeft element) && wholePixels (rectTop element) &&
  wholePixels (extentWidth element) && wholePixels (extentHeight element).

(** Sample layout: an 800 by 600 host at the window origin and a 420 by 200
    panel. *)
Definition sampleHost : Element := mkElement 0 0 800 600.
Definition samplePanel (at_ : Point) : Element :=
  mkElement (px at_) (py at_) 420 200.
Definition sampleDom (at_ : Point) : Dom :=
  mkDom (Some sampleHost) (Some (samplePanel at_)).

End Panel.

(** ** Drop overlay *)

Module DropZone.

Local Open Scope Z_scope.

Record DragState : Type := mkDragState {
  dragDepth : Z;
  isDragging : bool
}.

Definition initialDrag : DragState := mkDragState 0 false.

(** [hasFiles] is [event.dataTransfer?.types.includes('Files')]. *)
Definition onDragEnter (hasFiles : bool) (s : DragState) : DragState :=
  if negb hasFiles then s else mkDragState (dragDepth s + 1) true.

Definition onDragLeave (s : DragState) : DragState :=
  let depth := Z.max (dragDepth s - 1) 0 in
  mkDragState depth (if Z.eqb depth 0 then false else isDragging s).

(** The part of [onDrop] that concerns the overlay. *)
Definition onDrop (s : DragState) : DragState := mkDragState 0 false.

Inductive DragEvent : Type :=
| DragEnter (hasFiles : bool)
| DragLeave
| Drop.

Definition dragStep (s : DragState) (e : DragEvent) : DragState :=
  match e with
  | DragEnter hasFiles => onDragEnter hasFiles s
  | DragLeave => onDragLeave s
  | Drop => onDrop s
  end.

Definition dragRun (s : DragState) (events : list DragEvent) : DragState :=
  fold_left dragStep events s.

Definition dragConsistent (s : DragState) : Prop :=
  0 <= dragDepth s /\ isDragging s = (0 <? dragDepth s).

End DropZone.

(** ** Build output names ([vite.config.ts]) *)

Module BuildConfig.
Import AssetIndex Session.

Definition assetsPattern : string := "assets/[name]-[hash][extname]".
Definition cssPattern : string := "css/[name]-[hash][extname]".
Definition imagesPattern : string := "images/[name]-[hash][extname]".
Definition fontsPattern : string := "fonts/[name]-[hash][extname]".

Definition imageExtensions : list string :=
  [".png"; ".jpg"; ".jpeg"; ".gif"; ".svg"; ".webp"; ".ico"].
Definition fontExtensions : list string :=
  [".woff"; ".woff2"; ".eot"; ".ttf"; ".otf"].

(** A pattern [/\.(a|b|...)$/i]: the name ends in one of the extensions,
    whatever the case of its ASCII letters. *)
Definition endsWithAnyCase (extensions : list string) (name : string) : bool :=
  existsb (endsWith (toLowerCase name)) extensions.

(** [assetFileNames]; the argument is [assetInfo?.names?.[0]]. *)
Definition assetFileNames (firstName : option string) : string :=
  let name := match firstName with Some n => n | None => "" end in
  if String.eqb name "" then assetsPattern
  else if endsWith name ".css" then cssPattern
  else if endsWithAnyCase imageExtensions name then imagesPattern
  else if endsWithAnyCase fontExtensions name then fontsPattern
  else assetsPattern.

End BuildConfig.

(** ** Further predicates of the statements *)

Module SessionShape.
Import AssetIndex Session.

(** The tracked set holds primary URLs only, the transient pool transient
    URLs only. *)
Definition poolsTyped (w : World) : Prop :=
  (forall url, In url (trackedObjectUrls (viewer w)) ->
               ownerOf url w = Some Primary) /\
  (forall url, In url (transientResourceUrls (viewer w)) ->
               exists generation, ownerOf url w = Some (Transient generation)).

(** Every entry of an index is one of the given files, under one of the keys
    that file contributes. *)
Definition indexedFrom (files : list File) (m : gmap string File) : Prop :=
  forall key file, m !! key = Some file ->
    In file files /\ exists keys, indexKeys file = Ok keys /\ In key keys.

Definition panda : File := mkFile "Panda.PNG" "" 5.

End SessionShape.

Module FramingShape.
Import Framing.
Local Open Scope R_scope.

(** The squared distance of a point from the orbit target at the origin. *)
Definition squaredNorm (v : Vector3) : R := vx v * vx v + vy v * vy v + vz v * vz v.

End FramingShape.

(** * Properties *)

(** ** Path normalizer *)

Module PathNormalizerFacts.
Import PathNormalizer.

Lemma decode_without_percent (s : string) :
  containsChar "%" s = false -> decodeURIComponent s = Ok s.
Proof.
  induction s as [|c rest IH]; [reflexivity|].
  cbn [containsChar]. intros H. apply orb_false_iff in H as [Hc Hrest].
  cbn [decodeURIComponent]. rewrite Hc, (IH Hrest). reflexivity.
Qed.

Lemma backslashes_gone (s : string) :
  containsChar "\" (backslashesToSlashes s) = false.
Proof.
  induction s as [|c rest IH]; [reflexivity|].
  cbn [backslashesToSlashes containsChar]. rewrite IH, orb_false_r.
  destruct (Ascii.eqb c "\") eqn:E; [reflexivity | exact E].
Qed.

Lemma backslashes_id (s : string) :
  containsChar "\" s = false -> backslashesToSlashes s = s.
Proof.
  induction s as [|c rest IH]; [reflexivity|].
  cbn [containsChar backslashesToSlashes]. intros H.
  apply orb_false_iff in H as [Hc Hrest]. rewrite Hc, (IH Hrest). reflexivity.
Qed.

Lemma before_keeps_absent (c : ascii) (s : string) :
  containsChar c s = false -> containsChar c (beforeQueryOrHash s) = false.
Proof.
  induction s as [|d rest IH]; [reflexivity|].
  cbn [containsChar beforeQueryOrHash]. intros H.
  apply orb_false_iff in H as [Hd Hrest].
  destruct (Ascii.eqb d "?" || Ascii.eqb d "#"); [reflexivity|].
  cbn [containsChar]. rewrite Hd, (IH Hrest). reflexivity.
Qed.

Lemma before_has_no_mark (s : string) :
  containsChar "?" (beforeQueryOrHash s) = false /\
  containsChar "#" (beforeQueryOrHash s) = false.
Proof.
  induction s as [|d rest [IHq IHh]]; [split; reflexivity|].
  cbn [beforeQueryOrHash].
  destruct (Ascii.eqb d "?") eqn:Eq; [split; reflexivity|].
  destruct (Ascii.eqb d "#") eqn:Eh; [split; reflexivity|].
  cbn [orb containsChar]. rewrite Eq, Eh, IHq, IHh. split; reflexivity.
Qed.

Lemma before_id (s : string) :
  containsChar "?" s = false -> containsChar "#" s = false ->
  beforeQueryOrHash s = s.
Proof.
  induction s as [|d rest IH]; [reflexivity|].
  cbn [containsChar beforeQueryOrHash]. intros Hq Hh.
  apply orb_false_iff in Hq as [Hq Hq'], Hh as [Hh Hh'].
  rewrite Hq, Hh. cbn [orb]. rewrite (IH Hq' Hh'). reflexivity.
Qed.

(** A normal form carries no backslash, no question mark and no hash. *)
Lemma normal_form_clean (s r : string) :
  normalizeAssetPath s = Ok r ->
  containsChar "\" r = false /\ containsChar "?" r = false /\
  containsChar "#" r = false.
Proof.
  unfold normalizeAssetPath. destruct (decodeURIComponent s) as [d|e]; [|discriminate].
  cbn. intros [= <-].
  split; [apply before_keeps_absent, backslashes_gone | apply before_has_no_mark].
Qed.

(** A string without percent sign, backslash, query or fragment mark and
    without one of the three stripped prefixes is its own normal form. *)
Lemma normalize_fixed (r : string) :
  containsChar "%" r = false -> containsChar "\" r = false ->
  containsChar "?" r = false -> containsChar "#" r = false ->
  String.prefix "/" r = false -> String.prefix "./" r = false ->
  String.prefix "blob:" r = false ->
  normalizeAssetPath r = Ok r.
Proof.
  intros Hp Hb Hq Hh Hs Hd Hblob. unfold normalizeAssetPath.
  rewrite (decode_without_percent _ Hp). cbn.
  unfold stripBlobPrefix. rewrite Hblob.
  unfold stripDotSlash. rewrite Hd, Hs.
  unfold stripLeadingSlash. rewrite Hs.
  rewrite (backslashes_id _ Hb), (before_id _ Hq Hh). reflexivity.
Qed.

(** C3: on the lone percent sign the function raises [URIError] and returns
    no string; nothing in it catches the exception of [decodeURIComponent]. *)
Theorem normalizeAssetPath_lone_percent_throws :
  normalizeAssetPath "%" = Throw (URIError "URI malformed") /\
  ~ returns (normalizeAssetPath "%") /\
  normalizeAssetPath "100%.png" = Throw (URIError "URI malformed").
Proof.
  repeat split; try reflexivity.
  intros [r Hr]. discriminate Hr.
Qed.

(** C4 as stated fails: three leading slashes lose two of them in the first
    pass and the third one only in a second pass. *)
Lemma normalizeAssetPath_not_idempotent :
  normalizeAssetPath "///a" = Ok "/a" /\
  normalizeTwice "///a" = Ok "a" /\
  normalizeTwice "///a" <> normalizeAssetPath "///a".
Proof. repeat split; try reflexivity. discriminate. Qed.

(** C4, amended: normalizing twice equals normalizing once whenever the
    normal form holds no percent sign and does not begin with a slash, with
    [./] or with [blob:]. *)
Theorem normalizeAssetPath_idempotent_on_plain (s r : string) :
  normalizeAssetPath s = Ok r ->
  containsChar "%" r = false ->
  String.prefix "/" r = false ->
  String.prefix "./" r = false ->
  String.prefix "blob:" r = false ->
  normalizeTwice s = normalizeAssetPath s.
Proof.
  intros Hr Hp Hs Hd Hblob.
  destruct (normal_form_clean _ _ Hr) as (Hb & Hq & Hh).
  unfold normalizeTwice. rewrite Hr. cbn.
  change (normalizeAssetPath r = Ok r). now apply normalize_fixed.
Qed.

Lemma normalizeAssetPath_idempotent_on_plain_witness :
  normalizeTwice "./textures/robot.bin?v=1#top" =
  normalizeAssetPath "./textures/robot.bin?v=1#top".
Proof.
  apply (normalizeAssetPath_idempotent_on_plain
           "./textures/robot.bin?v=1#top" "textures/robot.bin");
    reflexivity.
Defined.

End PathNormalizerFacts.

(** ** Asset index *)

Module AssetIndexFacts.
Import PathNormalizer AssetIndex.

Lemma setAll_lookup (file : File) (keys : list string) (m : gmap string File)
    (key : string) :
  setAll file keys m !! key =
  if in_dec string_dec key keys then Some file else m !! key.
Proof.
  unfold setAll. revert m.
  induction keys as [|k keys IH]; intros m; cbn [fold_left].
  - destruct (in_dec string_dec key []) as [[]|]; reflexivity.
  - rewrite IH. destruct (in_dec string_dec key keys) as [Hin|Hout].
    + destruct (in_dec string_dec key (k :: keys)) as [|Hn]; [reflexivity|].
      exfalso. apply Hn. now right.
    + destruct (decide (k = key)) as [->|Hne].
      * rewrite lookup_insert_eq.
        destruct (in_dec string_dec key (key :: keys)) as [|Hn]; [reflexivity|].
        exfalso. apply Hn. now left.
      * rewrite lookup_insert_ne by exact Hne.
        destruct (in_dec string_dec key (k :: keys)) as [[H|H]|]; congruence.
Qed.

(** A key no file contributes keeps its old entry. *)
Lemma indexFiles_untouched (key : string) (files : list File) :
  forall m m' : gmap string File,
    indexFiles files m = Ok m' ->
    (forall g ks, In g files -> indexKeys g = Ok ks -> ~ In key ks) ->
    m' !! key = m !! key.
Proof.
  induction files as [|file rest IH]; intros m m' Hbuild Hnone.
  - injection Hbuild as <-. reflexivity.
  - cbn [indexFiles] in Hbuild.
    destruct (indexKeys file) as [ks|e] eqn:Hks; [|discriminate].
    cbn in Hbuild. rewrite (IH _ _ Hbuild).
    + rewrite setAll_lookup.
      destruct (in_dec string_dec key ks) as [Hin|]; [|reflexivity].
      exfalso. exact (Hnone file ks (or_introl eq_refl) Hks Hin).
    + intros g gs Hg. apply Hnone. now right.
Qed.

(** An entry for [f] survives the files that do not contribute its key. *)
Lemma indexFiles_keeps (key : string) (f : File) (files : list File) :
  forall m m' : gmap string File,
    indexFiles files m = Ok m' ->
    m !! key = Some f ->
    (forall g ks, In g files -> indexKeys g = Ok ks -> In key ks -> g = f) ->
    m' !! key = Some f.
Proof.
  induction files as [|file rest IH]; intros m m' Hbuild Hm Honly.
  - injection Hbuild as <-. exact Hm.
  - cbn [indexFiles] in Hbuild.
    destruct (indexKeys file) as [ks|e] eqn:Hks; [|discriminate].
    cbn in Hbuild. apply (IH _ _ Hbuild).
    + rewrite setAll_lookup. destruct (in_dec string_dec key ks) as [Hin|]; [|exact Hm].
      now rewrite (Honly file ks (or_introl eq_refl) Hks Hin).
    + intros g gs Hg. apply Honly. now right.
Qed.

(** The only contributor of a key owns it in the finished index. *)
Lemma indexFiles_sole_owner (key : string) (f : File) (fks : list string)
    (files : list File) :
  forall m m' : gmap string File,
    indexFiles files m = Ok m' ->
    In f files -> indexKeys f = Ok fks -> In key fks ->
    (forall g ks, In g files -> indexKeys g = Ok ks -> In key ks -> g = f) ->
    m' !! key = Some f.
Proof.
  induction files as [|file rest IH]; intros m m' Hbuild Hf Hfks Hkey Honly.
  - destruct Hf.
  - cbn [indexFiles] in Hbuild.
    destruct (indexKeys file) as [ks|e] eqn:Hks; [|discriminate].
    cbn in Hbuild.
    assert (Hrest : forall g gs, In g rest -> indexKeys g = Ok gs ->
                                 In key gs -> g = f)
      by (intros g gs Hg; apply Honly; now right).
    destruct (in_dec string_dec key ks) as [Hin|Hout].
    + apply (indexFiles_keeps key f rest _ _ Hbuild); [|exact Hrest].
      rewrite setAll_lookup. destruct (in_dec string_dec key ks); [|contradiction].
      now rewrite (Honly file ks (or_introl eq_refl) Hks Hin).
    + destruct Hf as [->|Hf]; [congruence|].
      now apply (IH _ _ Hbuild).
Qed.

Lemma addToSet_extends (value : string) (keys : list string) :
  exists more, addToSet value keys = (keys ++ more)%list.
Proof.
  unfold addToSet. destruct (existsb (String.eqb value) keys).
  - exists []. now rewrite app_nil_r.
  - now exists [value].
Qed.

Lemma addKey_extends (value : string) (keys keys' : list string) :
  addKey value keys = Ok keys' -> exists more, keys' = (keys ++ more)%list.
Proof.
  unfold addKey. destruct (normalizeAssetPath value) as [n|e]; [|discriminate].
  cbn. set (k1 := addToSet n keys). set (k2 := addToSet (toLowerCase n) k1).
  set (k3 := addToSet (basenameOf n) k2).
  set (k4 := addToSet (toLowerCase (basenameOf n)) k3).
  destruct (addToSet_extends n keys) as [m1 H1].
  destruct (addToSet_extends (toLowerCase n) k1) as [m2 H2].
  destruct (addToSet_extends (basenameOf n) k2) as [m3 H3].
  destruct (addToSet_extends (toLowerCase (basenameOf n)) k3) as [m4 H4].
  fold k1 in H1. fold k2 in H2. fold k3 in H3. fold k4 in H4.
  destruct (nonEmpty n); [|intros [= <-]; exists []; now rewrite app_nil_r].
  destruct (nonEmpty (basenameOf n)); intros [= <-].
  - exists (m1 ++ m2 ++ m3 ++ m4)%list.
    rewrite H4, H3, H2, H1, <- !app_assoc. reflexivity.
  - exists (m1 ++ m2)%list. rewrite H2, H1, <- !app_assoc. reflexivity.
Qed.

(** The keys of the raw reference are probed first, whatever the URL parser
    adds. *)
Lemma candidateKeys_start (parser : string -> option string) (url : string)
    (first : list string) :
  addKey url [] = Ok first ->
  exists more, candidateKeys parser url = Ok (first ++ more)%list.
Proof.
  intros Hfirst. unfold candidateKeys. rewrite Hfirst. cbn.
  destruct (parser url) as [pathname|]; [|exists []; now rewrite app_nil_r].
  destruct (addKey pathname first) as [keys'|e] eqn:Hadd.
  - destruct (addKey_extends _ _ _ Hadd) as [more ->]. now exists more.
  - exists []. now rewrite app_nil_r.
Qed.

Lemma probe_app_hit (m : gmap string File) (first more : list string) (f : File) :
  probe m first = Some f -> probe m (first ++ more) = Some f.
Proof.
  induction first as [|k first IH]; [discriminate|].
  cbn [probe app]. destruct (m !! k); [trivial | exact IH].
Qed.

Lemma find_by_first_keys (parser : string -> option string)
    (m : gmap string File) (url : string) (first : list string) (f : File) :
  addKey url [] = Ok first -> probe m first = Some f ->
  findAssetFileByUrl parser m url = Ok (Some f).
Proof.
  intros Hfirst Hprobe. unfold findAssetFileByUrl.
  destruct (candidateKeys_start parser url first Hfirst) as [more ->].
  cbn. now rewrite (probe_app_hit _ _ _ _ Hprobe).
Qed.

(** C7 as stated fails: a second file named [robot.bin] takes over the
    lowercase basename key, so the bare reference resolves to it while the
    reference with the directory still resolves to [Robot.BIN]. *)
Lemma robot_references_disagree :
  In robotFile [robotFile; shadowFile] /\
  name robotFile = "Robot.BIN" /\
  webkitRelativePath robotFile = "textures/Robot.BIN" /\
  shadowFile <> robotFile /\
  forall parser : string -> option string,
    resolveIn parser [robotFile; shadowFile] "robot.bin" = Ok (Some shadowFile) /\
    resolveIn parser [robotFile; shadowFile] "./textures/robot.bin"
      = Ok (Some robotFile).
Proof.
  repeat split; try reflexivity; try (now left); try discriminate.
  - unfold resolveIn.
    assert (Hm : exists m, buildAssetMap [robotFile; shadowFile] = Ok m /\
               m !! "robot.bin" = Some shadowFile)
      by (eexists; split; [reflexivity | vm_compute; reflexivity]).
    destruct Hm as (m & -> & Hk). cbn.
    apply (find_by_first_keys parser m "robot.bin" ["robot.bin"]);
      [reflexivity | cbn; now rewrite Hk].
  - unfold resolveIn.
    assert (Hm : exists m, buildAssetMap [robotFile; shadowFile] = Ok m /\
               m !! "textures/robot.bin" = Some robotFile)
      by (eexists; split; [reflexivity | vm_compute; reflexivity]).
    destruct Hm as (m & -> & Hk). cbn.
    apply (find_by_first_keys parser m "./textures/robot.bin"
             ["textures/robot.bin"; "robot.bin"]);
      [reflexivity | cbn; now rewrite Hk].
Qed.

(** C7, amended: when the index is built without an exception and no other
    file of the set contributes one of the four probed keys, each of the
    three references resolves to the [Robot.BIN] file. *)
Theorem robot_references_resolve (parser : string -> option string)
    (files : list File) (f : File) (m : gmap string File) :
  In f files ->
  name f = "Robot.BIN" ->
  webkitRelativePath f = "textures/Robot.BIN" ->
  buildAssetMap files = Ok m ->
  (forall g, In g files -> g <> f -> contributesNone robotProbeKeys g) ->
  resolveIn parser files "./textures/robot.bin" = Ok (Some f) /\
  resolveIn parser files "robot.bin" = Ok (Some f) /\
  resolveIn parser files "TEXTURES/ROBOT.BIN" = Ok (Some f).
Proof.
  intros Hf Hname Hrel Hbuild Hothers.
  assert (Hfks : indexKeys f =
                 Ok ["Robot.BIN"; "robot.bin"; "textures/Robot.BIN";
                     "textures/robot.bin"; "Robot.BIN"; "robot.bin"])
    by (unfold indexKeys; rewrite Hname, Hrel; reflexivity).
  assert (Honly : forall key, In key robotProbeKeys ->
            forall g ks, In g files -> indexKeys g = Ok ks -> In key ks -> g = f).
  { intros key Hkey g ks Hg Hks Hin.
    destruct (decide (g = f)) as [|Hne]; [assumption|].
    exfalso. exact (Hothers g Hg Hne ks key Hks Hkey Hin). }
  assert (Hlow : m !! "textures/robot.bin" = Some f).
  { eapply (indexFiles_sole_owner "textures/robot.bin" f); eauto.
    - cbn. tauto.
    - apply Honly. cbn. tauto. }
  assert (Hbase : m !! "robot.bin" = Some f).
  { eapply (indexFiles_sole_owner "robot.bin" f); eauto.
    - cbn. tauto.
    - apply Honly. cbn. tauto. }
  assert (Hupper : m !! "TEXTURES/ROBOT.BIN" = None).
  { rewrite (indexFiles_untouched "TEXTURES/ROBOT.BIN" files ∅ m Hbuild).
    - apply lookup_empty.
    - intros g ks Hg Hks Hin.
      assert (g = f) by (eapply (Honly "TEXTURES/ROBOT.BIN"); eauto; cbn; tauto).
      subst g. rewrite Hfks in Hks. injection Hks as <-.
      cbn in Hin. intuition discriminate. }
  unfold resolveIn. rewrite Hbuild. cbn. repeat split.
  - apply (find_by_first_keys parser m "./textures/robot.bin"
             ["textures/robot.bin"; "robot.bin"]);
      [reflexivity | cbn; now rewrite Hlow].
  - apply (find_by_first_keys parser m "robot.bin" ["robot.bin"]);
      [reflexivity | cbn; now rewrite Hbase].
  - apply (find_by_first_keys parser m "TEXTURES/ROBOT.BIN"
             ["TEXTURES/ROBOT.BIN"; "textures/robot.bin"; "ROBOT.BIN"; "robot.bin"]);
      [reflexivity | cbn; now rewrite Hupper, Hlow].
Qed.

Lemma robot_references_resolve_witness :
  resolveIn originRoot [coverFile; robotFile] "./textures/robot.bin"
    = Ok (Some robotFile) /\
  resolveIn originRoot [coverFile; robotFile] "robot.bin" = Ok (Some robotFile) /\
  resolveIn originRoot [coverFile; robotFile] "TEXTURES/ROBOT.BIN"
    = Ok (Some robotFile).
Proof.
  eapply (robot_references_resolve originRoot [coverFile; robotFile] robotFile).
  - right. left. reflexivity.
  - reflexivity.
  - reflexivity.
  - vm_compute. reflexivity.
  - intros g [<-|[<-|[]]] Hne; [|congruence].
    intros ks key Hks Hkey Hin. vm_compute in Hks. injection Hks as <-.
    cbn in Hkey, Hin. intuition (subst; discriminate).
Defined.

End AssetIndexFacts.

(** ** Session: object URL lifecycle and load callbacks *)

Module SessionFacts.
Import PathNormalizer AssetIndex Session.
Local Open Scope nat_scope.

#[local] Arguments occurrences : simpl never.
#[local] Arguments hasUrl : simpl never.
#[local] Arguments Nat.ltb : simpl never.

Lemma occurrences_app (url : ObjectUrl) (l1 l2 : list ObjectUrl) :
  occurrences url (l1 ++ l2) = occurrences url l1 + occurrences url l2.
Proof. apply count_occ_app. Qed.

Lemma occurrences_nil (url : ObjectUrl) : occurrences url [] = 0.
Proof. reflexivity. Qed.

Lemma occurrences_single (url u : ObjectUrl) :
  occurrences url [u] = if Nat.eqb u url then 1 else 0.
Proof.
  unfold occurrences. cbn. destruct (Nat.eq_dec u url) as [->|Hne].
  - now rewrite Nat.eqb_refl.
  - apply Nat.eqb_neq in Hne. now rewrite Hne.
Qed.

Lemma occurrences_without (url u : ObjectUrl) (l : list ObjectUrl) :
  occurrences url (List.filter (fun x => negb (Nat.eqb u x)) l) =
  if Nat.eqb u url then 0 else occurrences url l.
Proof.
  unfold occurrences. induction l as [|x l IH].
  - cbn. now destruct (Nat.eqb u url).
  - cbn [List.filter]. destruct (Nat.eqb u x) eqn:Eux; cbn [negb].
    + apply Nat.eqb_eq in Eux. subst x. rewrite IH. cbn [count_occ].
      destruct (Nat.eq_dec u url) as [->|Hne]; [now rewrite Nat.eqb_refl|].
      reflexivity.
    + cbn [count_occ]. rewrite IH.
      destruct (Nat.eq_dec x url) as [->|Hne]; [now rewrite Eux|].
      reflexivity.
Qed.

Lemma hasUrl_occurs (url : ObjectUrl) (l : list ObjectUrl) :
  hasUrl url l = true <-> 0 < occurrences url l.
Proof.
  unfold hasUrl, occurrences. rewrite existsb_exists. split.
  - intros (x & Hx & E). apply Nat.eqb_eq in E. subst x.
    now apply (count_occ_In Nat.eq_dec) in Hx.
  - intros H. exists url. split; [|apply Nat.eqb_refl].
    now apply (count_occ_In Nat.eq_dec).
Qed.

Lemma hasUrl_absent (url : ObjectUrl) (l : list ObjectUrl) :
  occurrences url l = 0 -> hasUrl url l = false.
Proof.
  intros H. destruct (hasUrl url l) eqn:E; [|reflexivity].
  apply hasUrl_occurs in E. lia.
Qed.

Lemma revokeEach_eq (urls : list ObjectUrl) (w : World) :
  revokeEach urls w =
  mkWorld (viewer w)
    (mkBrowser (objectUrls (browser w)) (revocations (browser w) ++ urls))
    (loader w).
Proof.
  unfold revokeEach. revert w. induction urls as [|u urls IH]; intros w; cbn.
  - rewrite app_nil_r. now destruct w as [v [o r] l].
  - rewrite IH. unfold revokeObjectURL. cbn. now rewrite <- app_assoc.
Qed.

Lemma revokeTransient_eq (w : World) :
  revokeTransientResourceUrls w =
  mkWorld (withTransient [] (viewer w))
    (mkBrowser (objectUrls (browser w))
       (revocations (browser w) ++ transientResourceUrls (viewer w)))
    (loader w).
Proof. unfold revokeTransientResourceUrls. now rewrite revokeEach_eq. Qed.

(** Unfolds the world into its fields and normalises the counting goals. *)
Ltac open_world w :=
  unfold onViewer, onLoader in *;
  destruct w as [[sc gl am hm il st re ue mp tr tn] [objs revs] [mi pl fl ti]];
  cbn in *.

Ltac count_simpl :=
  repeat (rewrite ?occurrences_app, ?occurrences_single, ?occurrences_without,
            ?occurrences_nil, ?length_app in *; cbn [List.length] in * ).

Lemma accounted_bound (w : World) (url : ObjectUrl) :
  accounted w ->
  occurrences url (trackedObjectUrls (viewer w)) <= 1 /\
  occurrences url (transientResourceUrls (viewer w)) <= 1 /\
  releaseCount url w <= 1.
Proof. intros H. specialize (H url). destruct (url <? mintedCount w); lia. Qed.

Lemma accounted_fresh (w : World) :
  accounted w ->
  occurrences (mintedCount w) (trackedObjectUrls (viewer w)) = 0 /\
  occurrences (mintedCount w) (transientResourceUrls (viewer w)) = 0 /\
  releaseCount (mintedCount w) w = 0.
Proof.
  intros H. specialize (H (mintedCount w)). rewrite Nat.ltb_irrefl in H. lia.
Qed.

(** Revoking the transient pool moves it to the revocation log. *)
Lemma sweep_accounted (w : World) :
  accounted w -> accounted (revokeTransientResourceUrls w).
Proof.
  intros H url. specialize (H url). rewrite revokeTransient_eq.
  unfold releaseCount, mintedCount in *. open_world w. count_simpl. lia.
Qed.

Lemma revokeTracked_accounted (u : ObjectUrl) (w : World) :
  accounted w -> accounted (revokeTrackedUrl u w).
Proof.
  intros H. unfold revokeTrackedUrl.
  destruct (hasUrl u (trackedObjectUrls (viewer w))) eqn:Hhas; [|exact H].
  apply hasUrl_occurs in Hhas. intros url.
  pose proof (accounted_bound w u H) as (Hb & _).
  specialize (H url).
  unfold releaseCount, mintedCount, revokeObjectURL in *. open_world w.
  count_simpl. destruct (Nat.eqb u url) eqn:E.
  - apply Nat.eqb_eq in E. subst url. lia.
  - lia.
Qed.

Ltac nat_cases :=
  repeat match goal with
         | |- context [?a <? ?b] => destruct (Nat.ltb_spec a b)
         | |- context [?a =? ?b] => destruct (Nat.eqb_spec a b)
         | H : context [?a <? ?b] |- _ => destruct (Nat.ltb_spec a b)
         | H : context [?a =? ?b] |- _ => destruct (Nat.eqb_spec a b)
         end; try lia.

Lemma initial_consistent : consistent initialWorld.
Proof.
  split.
  - intros url. reflexivity.
  - intros p [].
Qed.

Lemma load_consistent (files : list File) (w w' : World) :
  consistent w -> loadModelFromFileSet files w = Ok w' -> consistent w'.
Proof.
  intros [Hacc Hpend]. unfold loadModelFromFileSet.
  destruct (negb (gltfLoader (viewer w)) || negb (scene (viewer w)));
    [intros [= <-]; now split|].
  destruct (find isModelFile files) as [main|].
  2:{ intros [= <-]. split.
      - intros url. specialize (Hacc url). now open_world w.
      - intros p Hp. apply (Hpend p). now open_world w. }
  destruct (buildAssetMap files) as [nextMap|e]; [|discriminate].
  cbn. intros [= <-].
  pose proof (accounted_fresh w Hacc) as (Hfresh & _).
  apply hasUrl_absent in Hfresh. unfold mintedCount in Hfresh.
  unfold addTrackedUrl, createObjectURL, onLoader, onViewer. cbn.
  rewrite Hfresh. split.
  - intros url. specialize (Hacc url).
    unfold releaseCount, mintedCount in *. open_world w. count_simpl.
    nat_cases.
  - intros p Hp. unfold pendingMinted, mintedCount in *. open_world w.
    count_simpl. apply in_app_or in Hp as [Hp|[<-|[]]].
    + specialize (Hpend p Hp). lia.
    + cbn. lia.
Qed.

Lemma resolve_consistent (parser : string -> option string)
    (generation : ObjectUrl) (url : string) (w w' : World) (r : Resolved) :
  consistent w -> resolveAssetUrl parser generation url w = Ok (r, w') ->
  consistent w' /\ loader w' = loader w.
Proof.
  intros [Hacc Hpend]. unfold resolveAssetUrl.
  destruct (mapIsEmpty (assetMap (viewer w)) || isDataUri url);
    [intros [= <- <-]; now repeat split|].
  destruct (findAssetFileByUrl parser (assetMap (viewer w)) url) as [[file|]|e];
    cbn; [| intros [= <- <-]; now repeat split | discriminate].
  intros [= <- <-]. split; [split|].
  - intros u. specialize (Hacc u).
    unfold releaseCount, mintedCount in *. open_world w. count_simpl.
    nat_cases.
  - intros p Hp. unfold pendingMinted, mintedCount in *. open_world w.
    count_simpl. specialize (Hpend p Hp). lia.
  - now open_world w.
Qed.

Lemma settle_consistent (generation : ObjectUrl) (w : World) :
  consistent w -> consistent (settle generation w).
Proof.
  intros [Hacc Hpend]. split.
  - intros url. specialize (Hacc url). now open_world w.
  - intros p Hp. apply (Hpend p). open_world w.
    now apply filter_In in Hp as [Hp _].
Qed.

(** A change of the viewer that leaves the two URL collections alone. *)
Lemma viewer_change_consistent (f : Viewer -> Viewer) (w : World) :
  (forall v, trackedObjectUrls (f v) = trackedObjectUrls v) ->
  (forall v, transientResourceUrls (f v) = transientResourceUrls v) ->
  consistent w -> consistent (onViewer f w).
Proof.
  intros Htr Htn [Hacc Hpend]. split.
  - intros url. specialize (Hacc url). unfold releaseCount, mintedCount in *.
    destruct w as [v b l]. cbn in *. now rewrite Htr, Htn.
  - intros p Hp. now apply (Hpend p).
Qed.

Lemma clearModel_tracked (v : Viewer) :
  trackedObjectUrls (clearModel v) = trackedObjectUrls v /\
  transientResourceUrls (clearModel v) = transientResourceUrls v.
Proof. unfold clearModel. destruct (_ && _); split; reflexivity. Qed.

Lemma revokes_consistent (u : ObjectUrl) (w : World) :
  consistent w ->
  consistent (revokeTransientResourceUrls (revokeTrackedUrl u w)).
Proof.
  intros [Hacc Hpend]. split.
  - now apply sweep_accounted, revokeTracked_accounted.
  - intros p Hp. rewrite revokeTransient_eq in *. unfold revokeTrackedUrl in *.
    destruct (hasUrl u (trackedObjectUrls (viewer w)));
      apply (Hpend p); now open_world w.
Qed.

Lemma success_consistent (p : PendingLoad) (gltf : GLTF) (w : World) :
  consistent w -> consistent (onLoadSuccess p gltf w).
Proof.
  intros H. unfold onLoadSuccess.
  destruct (negb (scene (viewer w))); [exact H|].
  apply viewer_change_consistent; [| | now apply revokes_consistent];
    intros v; cbn; apply clearModel_tracked.
Qed.

Lemma error_consistent (p : PendingLoad) (error : Thrown) (w : World) :
  consistent w -> consistent (onLoadError p error w).
Proof.
  intros H. unfold onLoadError.
  apply viewer_change_consistent; [| | now apply revokes_consistent];
    intros v; reflexivity.
Qed.

Lemma unmount_eq (w : World) :
  onBeforeUnmount w =
  mkWorld
    (withSceneAndLoader false
       (withTracked [] (withTransient [] (clearModel (viewer w)))))
    (mkBrowser (objectUrls (browser w))
       ((revocations (browser w) ++ transientResourceUrls (viewer w)) ++
        trackedObjectUrls (viewer w)))
    (loader w).
Proof.
  unfold onBeforeUnmount. rewrite revokeEach_eq, revokeTransient_eq. cbn.
  destruct (clearModel_tracked (viewer w)) as [-> ->]. reflexivity.
Qed.

Lemma unmount_consistent (w : World) :
  consistent w -> consistent (onBeforeUnmount w).
Proof.
  intros [Hacc Hpend]. rewrite unmount_eq. split.
  - intros url. specialize (Hacc url).
    unfold releaseCount, mintedCount in *. cbn.
    destruct w as [v [objs revs] l]. cbn in *. count_simpl. lia.
  - intros p Hp. now apply (Hpend p).
Qed.

Lemma loader_change_consistent (f : Loader -> Loader) (w : World) :
  (forall l p, In p (pendingLoads (f l)) -> In p (pendingLoads l)) ->
  consistent w -> consistent (onLoader f w).
Proof.
  intros Hf [Hacc Hpend]. split.
  - intros url. specialize (Hacc url). now destruct w.
  - intros p Hp. apply (Hpend p). destruct w as [v b l]. cbn in *.
    now apply Hf.
Qed.

Lemma step_consistent (parser : string -> option string) (w : World) (e : Event) :
  consistent w -> consistent (step parser w e).
Proof.
  intros H. destruct e as [|files|g url|g u| | |g gltf|g error|]; cbn [step].
  - unfold onMounted. apply loader_change_consistent; [now intros l p|].
    apply viewer_change_consistent; [now intros v | now intros v | exact H].
  - destruct files as [|f files]; [exact H|].
    destruct (loadModelFromFileSet (f :: files) w) as [w'|e] eqn:E; [|exact H].
    exact (load_consistent _ _ _ H E).
  - destruct (managerInstalled (loader w)); [|exact H].
    destruct (resolveAssetUrl parser g url w) as [[[m|s] w']|e] eqn:E;
      [| |exact H].
    + apply loader_change_consistent; [now intros l p|].
      exact (proj1 (resolve_consistent _ _ _ _ _ _ H E)).
    + exact (proj1 (resolve_consistent _ _ _ _ _ _ H E)).
  - apply loader_change_consistent; [now intros l p | exact H].
  - destruct (managerInstalled (loader w)); [|exact H].
    apply loader_change_consistent; [now intros l p | exact H].
  - destruct (timers (loader w)) as [|n] eqn:E; [exact H|].
    assert (H' : consistent (onLoader (fun l =>
               mkLoader (managerInstalled l) (pendingLoads l) (inFlight l) n) w))
      by (apply loader_change_consistent; [now intros l p | exact H]).
    destruct H' as [Hacc Hpend]. split; [now apply sweep_accounted|].
    intros p Hp. rewrite revokeTransient_eq in Hp |- *. apply (Hpend p). exact Hp.
  - destruct (find (isGeneration g) (pendingLoads (loader w))); [|exact H].
    now apply success_consistent, settle_consistent.
  - destruct (find (isGeneration g) (pendingLoads (loader w))); [|exact H].
    now apply error_consistent, settle_consistent.
  - now apply unmount_consistent.
Qed.

Lemma run_from_consistent (parser : string -> option string)
    (events : list Event) :
  forall w, consistent w -> consistent (run parser w events).
Proof.
  induction events as [|e events IH]; intros w H; [exact H|].
  cbn [run fold_left]. apply IH. now apply step_consistent.
Qed.

Lemma run_consistent (parser : string -> option string) (events : list Event) :
  consistent (run parser initialWorld events).
Proof. apply run_from_consistent, initial_consistent. Qed.

Lemma hasUrl_none (url : ObjectUrl) (l : list ObjectUrl) :
  hasUrl url l = false -> occurrences url l = 0.
Proof.
  intros H. destruct (occurrences url l) eqn:E; [reflexivity|].
  assert (Hpos : 0 < occurrences url l) by lia.
  apply hasUrl_occurs in Hpos. congruence.
Qed.

(** What the two releases at the head of both callbacks do to the counts. *)
Lemma releases_counts (u : ObjectUrl) (w : World) (url : ObjectUrl) :
  let w' := revokeTransientResourceUrls (revokeTrackedUrl u w) in
  occurrences url (trackedObjectUrls (viewer w')) =
    (if u =? url then 0 else occurrences url (trackedObjectUrls (viewer w))) /\
  transientResourceUrls (viewer w') = [] /\
  releaseCount url w' =
    releaseCount url w + occurrences url (transientResourceUrls (viewer w)) +
    (if u =? url
     then if hasUrl u (trackedObjectUrls (viewer w)) then 1 else 0
     else 0) /\
  mintedCount w' = mintedCount w.
Proof.
  cbn zeta. rewrite revokeTransient_eq. unfold revokeTrackedUrl.
  destruct (hasUrl u (trackedObjectUrls (viewer w))) eqn:Hhas.
  - unfold releaseCount, mintedCount, revokeObjectURL. open_world w.
    count_simpl. repeat split; nat_cases.
  - apply hasUrl_none in Hhas.
    unfold releaseCount, mintedCount. open_world w. count_simpl.
    repeat split; nat_cases. subst. lia.
Qed.

Lemma success_counts (p : PendingLoad) (gltf : GLTF) (w : World) :
  scene (viewer w) = true ->
  trackedObjectUrls (viewer (onLoadSuccess p gltf w)) =
    trackedObjectUrls
      (viewer (revokeTransientResourceUrls (revokeTrackedUrl (mainUrl p) w))) /\
  transientResourceUrls (viewer (onLoadSuccess p gltf w)) =
    transientResourceUrls
      (viewer (revokeTransientResourceUrls (revokeTrackedUrl (mainUrl p) w))) /\
  browser (onLoadSuccess p gltf w) =
    browser (revokeTransientResourceUrls (revokeTrackedUrl (mainUrl p) w)).
Proof.
  intros Hscene. unfold onLoadSuccess. rewrite Hscene. cbn [negb].
  set (w1 := revokeTransientResourceUrls (revokeTrackedUrl (mainUrl p) w)).
  destruct (clearModel_tracked (viewer w1)) as [Ht Hn].
  unfold onViewer.
  cbn [viewer browser trackedObjectUrls transientResourceUrls withStatus
       withLoading withExtensions withModel].
  now rewrite Ht, Hn.
Qed.

Lemma find_generation (generation : ObjectUrl) (l : list PendingLoad)
    (p : PendingLoad) :
  find (isGeneration generation) l = Some p -> mainUrl p = generation /\ In p l.
Proof.
  intros H. apply find_some in H as [Hin Hp].
  apply Nat.eqb_eq in Hp. now split.
Qed.

(** A tracked URL other than the one released keeps its place and stays
    unreleased through the two releases. *)
Lemma releases_spare_other (u other : ObjectUrl) (w : World) :
  accounted w -> other <> u ->
  0 < occurrences other (trackedObjectUrls (viewer w)) ->
  let w' := revokeTransientResourceUrls (revokeTrackedUrl u w) in
  occurrences other (trackedObjectUrls (viewer w')) = 1 /\
  releaseCount other w' = 0.
Proof.
  intros Hacc Hne Hin. cbn zeta.
  destruct (releases_counts u w other) as (Ht & _ & Hr & _).
  specialize (Hacc other). rewrite Ht, Hr.
  destruct (Nat.eqb_spec u other); [congruence|].
  destruct (other <? mintedCount w); lia.
Qed.

(** When the raw reference already hits the index, the resolver mints a URL
    and appends it to the transient pool, whatever the URL parser says. *)
Lemma resolve_hit (parser : string -> option string) (generation : ObjectUrl)
    (url : string) (w : World) (first : list string) (file : File) :
  mapIsEmpty (assetMap (viewer w)) = false ->
  isDataUri url = false ->
  addKey url [] = Ok first ->
  probe (assetMap (viewer w)) first = Some file ->
  resolveAssetUrl parser generation url w =
  Ok (Mapped (mintedCount w),
      mkWorld
        (withTransient (transientResourceUrls (viewer w) ++ [mintedCount w])
           (viewer w))
        (mkBrowser (objectUrls (browser w) ++ [mkMinted file (Transient generation)])
           (revocations (browser w)))
        (loader w)).
Proof.
  intros Hmap Hdata Hfirst Hprobe. unfold resolveAssetUrl.
  rewrite Hmap, Hdata. cbn [orb].
  rewrite (AssetIndexFacts.find_by_first_keys parser _ url first file Hfirst Hprobe).
  reflexivity.
Qed.

Lemma run_snoc (parser : string -> option string) (w : World)
    (events : list Event) (e : Event) :
  run parser w (events ++ [e]) = step parser (run parser w events) e.
Proof. unfold run. now rewrite fold_left_app. Qed.

(** C1: the code breaks the claim in [overlappingLoads].  The transient
    URLs of all load cycles share one pool, so, whatever the URL parser, the
    success callback of the first load revokes the texture URL minted for
    the second load, which has not settled and whose request still reads
    that URL. *)
Theorem overlapping_loads_release_in_flight (parser : string -> option string) :
  let w := run parser initialWorld overlappingLoads in
  isPending 1 w /\
  ownerOf 2 w = Some (Transient 1) /\
  In (1, 2) (inFlight (loader w)) /\
  releaseCount 2 w = 1 /\
  strayRelease w.
Proof.
  intros w.
  assert (Hw : w = step parser
                     (step parser
                        (run parser initialWorld
                           [Mounted; FilesProvided [boxGlb];
                            FilesProvided [sceneGltf; woodPng]])
                        (SubresourceRequested 1 "wood.png"))
                     (LoadSucceeded 0 (mkGLTF 7 None))).
  { subst w. unfold overlappingLoads.
    change [Mounted; FilesProvided [boxGlb]; FilesProvided [sceneGltf; woodPng];
            SubresourceRequested 1 "wood.png"; LoadSucceeded 0 (mkGLTF 7 None)]
      with (([Mounted; FilesProvided [boxGlb];
              FilesProvided [sceneGltf; woodPng]]
             ++ [SubresourceRequested 1 "wood.png"])
            ++ [LoadSucceeded 0 (mkGLTF 7 None)])%list.
    now rewrite !run_snoc. }
  clearbody w.
  remember (run parser initialWorld
              [Mounted; FilesProvided [boxGlb];
               FilesProvided [sceneGltf; woodPng]]) as w3 eqn:Hw3.
  vm_compute in Hw3.
  assert (Hstep : step parser w3 (SubresourceRequested 1 "wood.png") =
                  mkWorld
                    (withTransient [2] (viewer w3))
                    (mkBrowser
                       (objectUrls (browser w3) ++ [mkMinted woodPng (Transient 1)])
                       (revocations (browser w3)))
                    (mkLoader true (pendingLoads (loader w3)) [(1, 2)] 0)).
  { cbn [step]. subst w3. cbn [loader managerInstalled].
    erewrite (resolve_hit parser 1 "wood.png" _ ["wood.png"] woodPng);
      [reflexivity | vm_compute; reflexivity | reflexivity | reflexivity
      | vm_compute; reflexivity]. }
  rewrite Hstep in Hw. subst w3. vm_compute in Hw. subst w.
  clear Hstep.
  match goal with
  | |- isPending 1 ?w /\ _ =>
      assert (Hpending : isPending 1 w) by (eexists; vm_compute; reflexivity);
      assert (Howner : ownerOf 2 w = Some (Transient 1))
        by (vm_compute; reflexivity);
      assert (Hflight : In (1, 2) (inFlight (loader w))) by (left; reflexivity);
      assert (Hcount : releaseCount 2 w = 1) by (vm_compute; reflexivity)
  end.
  split; [exact Hpending|]. split; [exact Howner|]. split; [exact Hflight|].
  split; [exact Hcount|].
  exists 1, 2. split; [exact Hpending|]. split; [exact Howner|].
  split; [exact Hflight|]. rewrite Hcount. lia.
Qed.

Lemma occurs_In (url : ObjectUrl) (l : list ObjectUrl) :
  In url l <-> 0 < occurrences url l.
Proof. unfold occurrences. apply (count_occ_In Nat.eq_dec). Qed.

Lemma tracked_unreleased (w : World) (url : ObjectUrl) :
  accounted w -> In url (trackedObjectUrls (viewer w)) -> releaseCount url w = 0.
Proof.
  intros Hacc Hin. apply occurs_In in Hin. specialize (Hacc url).
  destruct (url <? mintedCount w); lia.
Qed.

(** Settling one load cycle leaves the primary URL of every other cycle
    tracked and unreleased. *)
Lemma settling_spares_other_primaries (parser : string -> option string)
    (w : World) (generation other : ObjectUrl) (e : Event) :
  accounted w ->
  (exists gltf, e = LoadSucceeded generation gltf) \/
  (exists error, e = LoadFailed generation error) ->
  other <> generation ->
  In other (trackedObjectUrls (viewer w)) ->
  In other (trackedObjectUrls (viewer (step parser w e))) /\
  releaseCount other (step parser w e) = 0.
Proof.
  intros Hacc He Hne Hin.
  pose proof (tracked_unreleased w other Hacc Hin) as Hzero.
  assert (Hsettled : accounted (settle generation w))
    by (intros url; specialize (Hacc url); now open_world w).
  assert (Hin' : 0 < occurrences other
                       (trackedObjectUrls (viewer (settle generation w))))
    by (apply occurs_In; now open_world w).
  destruct He as [[gltf ->]|[error ->]]; cbn [step];
    destruct (find (isGeneration generation) (pendingLoads (loader w)))
      as [p|] eqn:Hfind; try (split; assumption);
    apply find_generation in Hfind as [Hp _]; rewrite <- Hp in Hne;
    destruct (releases_spare_other (mainUrl p) other _ Hsettled Hne Hin')
      as [Hkeep Hrel].
  - destruct (scene (viewer (settle generation w))) eqn:Hscene.
    + destruct (success_counts p gltf _ Hscene) as (Ht & _ & Hb).
      unfold releaseCount. rewrite Ht, Hb. split; [|exact Hrel].
      apply occurs_In. lia.
    + unfold onLoadSuccess. rewrite Hscene. cbn [negb].
      split; [|exact Hzero]. now open_world w.
  - unfold onLoadError, onViewer, releaseCount in *.
    cbn [viewer browser trackedObjectUrls withStatus withLoading].
    split; [apply occurs_In; lia | exact Hrel].
Qed.

(** X30: along every run of the viewer no object URL is revoked twice;
    every minted URL is in exactly one of the tracked set, the transient
    pool and the revocation log; leaving the view empties both collections
    and leaves every URL minted so far revoked exactly once; and settling
    one load cycle neither revokes nor drops the primary URL of another
    cycle. *)
Theorem object_urls_released_once (parser : string -> option string)
    (events : list Event) :
  let w := run parser initialWorld events in
  (forall url, releaseCount url w <= 1) /\
  accounted w /\
  (let w' := step parser w BeforeUnmount in
   trackedObjectUrls (viewer w') = [] /\
   transientResourceUrls (viewer w') = [] /\
   forall url, url < mintedCount w -> releaseCount url w' = 1) /\
  (forall generation other e,
     (exists gltf, e = LoadSucceeded generation gltf) \/
     (exists error, e = LoadFailed generation error) ->
     other <> generation ->
     In other (trackedObjectUrls (viewer w)) ->
     In other (trackedObjectUrls (viewer (step parser w e))) /\
     releaseCount other (step parser w e) = 0).
Proof.
  cbn zeta. destruct (run_consistent parser events) as [Hacc Hpend].
  set (w := run parser initialWorld events) in *.
  split; [|split; [exact Hacc|split]].
  - intros url. apply (accounted_bound w url Hacc).
  - cbn [step]. rewrite unmount_eq. cbn [viewer trackedObjectUrls
      transientResourceUrls withSceneAndLoader withTracked withTransient].
    repeat split. intros url Hurl. specialize (Hacc url).
    apply Nat.ltb_lt in Hurl. rewrite Hurl in Hacc.
    unfold releaseCount in *. cbn [browser revocations].
    rewrite !occurrences_app. lia.
  - intros generation other e. now apply settling_spares_other_primaries.
Qed.

(** C5: the code breaks the claim for the error callback.  After the view
    is left while a load is pending the scene is gone; the success callback
    checks this and leaves the state as it is, but the error callback of the
    same load has no such check: it clears the loading flag and replaces the
    status text. *)
Theorem error_callback_acts_after_teardown :
  let stale := mkPendingLoad 0 boxGlb 1 in
  scene (viewer leftWhileLoading) = false /\
  isLoading (viewer leftWhileLoading) = true /\
  find (isGeneration 0) (pendingLoads (loader leftWhileLoading)) = Some stale /\
  (forall gltf, onLoadSuccess stale gltf leftWhileLoading = leftWhileLoading) /\
  (forall error,
     let w' := onLoadError stale error leftWhileLoading in
     isLoading (viewer w') = false /\
     statusText (viewer w') = (failurePrefix ++ errorMessage error)%string /\
     viewer w' <> viewer leftWhileLoading).
Proof.
  cbn zeta. repeat split; try (vm_compute; reflexivity).
  intros H. apply (f_equal isLoading) in H. vm_compute in H. discriminate H.
Qed.

(** C8: when the loader reports a failure for a pending load, the error
    callback leaves the primary URL of that load released exactly once and no
    longer tracked, releases every URL of the transient pool and empties it,
    clears the loading flag, and sets the status to the fixed prefix followed
    by the message of an [Error], or by the string form of any other value. *)
Theorem load_failure_releases_and_reports (parser : string -> option string)
    (events : list Event) (generation : ObjectUrl) (p : PendingLoad)
    (error : Thrown) :
  let w := run parser initialWorld events in
  find (isGeneration generation) (pendingLoads (loader w)) = Some p ->
  let w' := step parser w (LoadFailed generation error) in
  releaseCount (mainUrl p) w' = 1 /\
  ~ In (mainUrl p) (trackedObjectUrls (viewer w')) /\
  (forall url, In url (transientResourceUrls (viewer w)) ->
               releaseCount url w' = 1) /\
  transientResourceUrls (viewer w') = [] /\
  isLoading (viewer w') = false /\
  statusText (viewer w') =
    (failurePrefix ++ match error with
                      | ThrownError message => message
                      | other => stringOf other
                      end)%string.
Proof.
  cbn zeta. intros Hfind. cbn [step]. rewrite Hfind.
  destruct (run_consistent parser events) as [Hacc Hpend].
  set (w := run parser initialWorld events) in *.
  apply find_generation in Hfind as [_ Hin].
  pose proof (Hpend p Hin) as Hminted. apply Nat.ltb_lt in Hminted.
  assert (Hsettled : accounted (settle generation w))
    by (intros url; specialize (Hacc url); now open_world w).
  assert (Hsame : transientResourceUrls (viewer (settle generation w)) =
                  transientResourceUrls (viewer w)) by now open_world w.
  assert (Hcount : mintedCount (settle generation w) = mintedCount w)
    by now open_world w.
  unfold onLoadError, onViewer, releaseCount.
  cbn [viewer browser trackedObjectUrls transientResourceUrls isLoading
       statusText withStatus withLoading].
  fold (releaseCount (mainUrl p)
          (revokeTransientResourceUrls
             (revokeTrackedUrl (mainUrl p) (settle generation w)))).
  split; [|split; [|split; [|repeat split]]].
  - destruct (releases_counts (mainUrl p) (settle generation w) (mainUrl p))
      as (_ & _ & Hr & _).
    rewrite Hr, Nat.eqb_refl. specialize (Hsettled (mainUrl p)).
    rewrite Hcount, Hminted in Hsettled.
    destruct (hasUrl (mainUrl p) (trackedObjectUrls (viewer (settle generation w))))
      eqn:Hhas; [apply hasUrl_occurs in Hhas | apply hasUrl_none in Hhas]; lia.
  - destruct (releases_counts (mainUrl p) (settle generation w) (mainUrl p))
      as (Ht & _). rewrite Nat.eqb_refl in Ht.
    intros Hin'. apply occurs_In in Hin'. lia.
  - intros url Hurl. rewrite <- Hsame in Hurl. apply occurs_In in Hurl.
    fold (releaseCount url
            (revokeTransientResourceUrls
               (revokeTrackedUrl (mainUrl p) (settle generation w)))).
    destruct (releases_counts (mainUrl p) (settle generation w) url)
      as (_ & _ & Hr & _).
    rewrite Hr. specialize (Hsettled url).
    destruct (url <? mintedCount (settle generation w)); [|lia].
    destruct (Nat.eqb_spec (mainUrl p) url) as [->|_]; [|lia].
    destruct (hasUrl url (trackedObjectUrls (viewer (settle generation w))))
      eqn:Hhas; [apply hasUrl_occurs in Hhas|]; lia.
Qed.

Lemma load_failure_releases_and_reports_witness :
  let w := run originRoot initialWorld textureRequested in
  let w' := step originRoot w (LoadFailed 0 (ThrownObject "ProgressEvent")) in
  releaseCount 0 w' = 1 /\
  ~ In 0 (trackedObjectUrls (viewer w')) /\
  (forall url, In url (transientResourceUrls (viewer w)) ->
               releaseCount url w' = 1) /\
  transientResourceUrls (viewer w') = [] /\
  isLoading (viewer w') = false /\
  statusText (viewer w') = (failurePrefix ++ "[object ProgressEvent]")%string.
Proof.
  apply (load_failure_releases_and_reports originRoot textureRequested 0
           (mkPendingLoad 0 sceneGltf 2) (ThrownObject "ProgressEvent")).
  vm_compute. reflexivity.
Defined.

Lemma find_none_model (files : list File) :
  (forall f, In f files -> isModelFile f = false) ->
  find isModelFile files = None.
Proof.
  induction files as [|f files IH]; intros H; [reflexivity|].
  cbn [find]. rewrite (H f (or_introl eq_refl)). apply IH.
  intros g Hg. apply H. now right.
Qed.

(** C9: in a mounted viewer, a file set without a [.glb] or [.gltf] name
    only changes the status text to the no-model-file message: the active
    model, the extension lists, the asset index and the URL collections stay
    as they were, no object URL is minted and no load is registered. *)
Theorem no_model_file_only_sets_status (files : list File) (w : World) :
  viewerReady w ->
  (forall f, In f files -> isModelFile f = false) ->
  exists w',
    loadModelFromFileSet files w = Ok w' /\
    statusText (viewer w') = noModelFileStatus /\
    activeModel (viewer w') = activeModel (viewer w) /\
    hasModel (viewer w') = hasModel (viewer w) /\
    requiredExtensions (viewer w') = requiredExtensions (viewer w) /\
    usedExtensions (viewer w') = usedExtensions (viewer w) /\
    assetMap (viewer w') = assetMap (viewer w) /\
    trackedObjectUrls (viewer w') = trackedObjectUrls (viewer w) /\
    transientResourceUrls (viewer w') = transientResourceUrls (viewer w) /\
    isLoading (viewer w') = isLoading (viewer w) /\
    browser w' = browser w /\
    mintedCount w' = mintedCount w /\
    loader w' = loader w.
Proof.
  intros [Hloader Hscene] Hnone.
  exists (onViewer (withStatus noModelFileStatus) w).
  unfold loadModelFromFileSet.
  rewrite Hloader, Hscene, (find_none_model files Hnone).
  repeat split.
Qed.

Lemma no_model_file_only_sets_status_witness :
  exists w',
    loadModelFromFileSet [notesTxt; woodPng] (onMounted initialWorld) = Ok w' /\
    statusText (viewer w') = noModelFileStatus /\
    activeModel (viewer w') = activeModel (viewer (onMounted initialWorld)) /\
    hasModel (viewer w') = hasModel (viewer (onMounted initialWorld)) /\
    requiredExtensions (viewer w')
      = requiredExtensions (viewer (onMounted initialWorld)) /\
    usedExtensions (viewer w') = usedExtensions (viewer (onMounted initialWorld)) /\
    assetMap (viewer w') = assetMap (viewer (onMounted initialWorld)) /\
    trackedObjectUrls (viewer w')
      = trackedObjectUrls (viewer (onMounted initialWorld)) /\
    transientResourceUrls (viewer w')
      = transientResourceUrls (viewer (onMounted initialWorld)) /\
    isLoading (viewer w') = isLoading (viewer (onMounted initialWorld)) /\
    browser w' = browser (onMounted initialWorld) /\
    mintedCount w' = mintedCount (onMounted initialWorld) /\
    loader w' = loader (onMounted initialWorld).
Proof.
  apply (no_model_file_only_sets_status [notesTxt; woodPng]
           (onMounted initialWorld)).
  - split; reflexivity.
  - intros f [<-|[<-|[]]]; reflexivity.
Defined.

(** The first file with a model extension, in list order. *)
Lemma find_first_model (files : list File) (main : File) :
  find isModelFile files = Some main ->
  exists before after,
    files = (before ++ main :: after)%list /\
    isModelFile main = true /\
    forall f, In f before -> isModelFile f = false.
Proof.
  induction files as [|f files IH]; [discriminate|].
  cbn [find]. destruct (isModelFile f) eqn:Hf.
  - intros [= <-]. exists [], files. repeat split; [exact Hf | intros g []].
  - intros H. destruct (IH H) as (before & after & -> & Hmain & Hbefore).
    exists (f :: before), after. repeat split; [exact Hmain|].
    intros g [<-|Hg]; [exact Hf | now apply Hbefore].
Qed.

(** When the index can be built, the first model file of the list is the
    one whose object URL is minted, tracked and handed to the loader, and the
    index is built from the whole list. *)
Lemma first_model_file_is_loaded (files : list File) (w : World) (main : File)
    (nextMap : gmap string File) :
  viewerReady w ->
  find isModelFile files = Some main ->
  buildAssetMap files = Ok nextMap ->
  exists w',
    loadModelFromFileSet files w = Ok w' /\
    pendingLoads (loader w') =
      (pendingLoads (loader w) ++
       [mkPendingLoad (mintedCount w) main (List.length files)])%list /\
    objectUrls (browser w') =
      (objectUrls (browser w) ++ [mkMinted main Primary])%list /\
    assetMap (viewer w') = nextMap /\
    isLoading (viewer w') = true /\
    statusText (viewer w') = loadingStatus main.
Proof.
  intros [Hloader Hscene] Hfind Hbuild. unfold loadModelFromFileSet.
  rewrite Hloader, Hscene, Hfind, Hbuild. cbn.
  eexists. split; [reflexivity|]. unfold mintedCount. now open_world w.
Qed.

(** C10: a model file whose name holds a stray percent sign is found as the
    primary file, but building the index raises [URIError] before any URL is
    minted: the load never starts and the viewer is left as it was.  The
    same happens when only a companion file has such a name. *)
Theorem percent_named_model_is_not_loaded :
  viewerReady (onMounted initialWorld) /\
  find isModelFile [percentGlb] = Some percentGlb /\
  loadModelFromFileSet [percentGlb] (onMounted initialWorld)
    = Throw (URIError "URI malformed") /\
  step originRoot (onMounted initialWorld) (FilesProvided [percentGlb])
    = onMounted initialWorld /\
  pendingLoads (loader (step originRoot (onMounted initialWorld)
                          (FilesProvided [percentGlb]))) = [] /\
  find isModelFile [boxGlb; percentPng] = Some boxGlb /\
  loadModelFromFileSet [boxGlb; percentPng] (onMounted initialWorld)
    = Throw (URIError "URI malformed").
Proof. repeat split. Qed.

End SessionFacts.

(** ** Binary64 numbers *)

Module BinaryFloatFacts.
Import PrimFloat SpecFloat FloatOps FloatAxioms.
Import BinaryFloat.
Local Open Scope Z_scope.

(** The specification's bit count is the binary logarithm plus one. *)
Lemma digits_log2 (p : positive) : Zpos (digits2_pos p) = Z.log2 (Zpos p) + 1.
Proof.
  assert (H : forall q, digits2_pos q = Pos.size q)
    by (induction q as [q IH|q IH|]; cbn; congruence).
  rewrite H. destruct p; cbn; lia.
Qed.

(** One step of the rounding shift halves the mantissa, and [n] steps
    shift it right by [n]. *)
Lemma shr_1_halves (r : shr_record) :
  0 <= shr_m r -> shr_m (shr_1 r) = Z.div2 (shr_m r).
Proof.
  destruct r as [m r s]. cbn. intros Hm.
  destruct m as [|[p|p|]|p]; try reflexivity. lia.
Qed.

Lemma iter_shr_1_shifts (p : positive) :
  forall r, 0 <= shr_m r ->
            shr_m (iter_pos shr_1 p r) = Z.shiftr (shr_m r) (Zpos p).
Proof.
  induction p as [p IH|p IH|]; intros r Hr; cbn [iter_pos].
  - assert (H1 : 0 <= shr_m (shr_1 r))
      by (rewrite shr_1_halves, Z.div2_spec by exact Hr; now apply Z.shiftr_nonneg).
    assert (H2 : 0 <= shr_m (iter_pos shr_1 p (shr_1 r)))
      by (rewrite IH by exact H1; now apply Z.shiftr_nonneg).
    rewrite IH, IH, shr_1_halves, Z.div2_spec, !Z.shiftr_shiftr by (assumption || lia).
    f_equal. lia.
  - assert (H2 : 0 <= shr_m (iter_pos shr_1 p r))
      by (rewrite IH by exact Hr; now apply Z.shiftr_nonneg).
    rewrite IH, IH, Z.shiftr_shiftr by (assumption || lia).
    f_equal. lia.
  - rewrite shr_1_halves, Z.div2_spec by exact Hr. reflexivity.
Qed.

(** Above the lowest exponent the shift to the target precision keeps at
    least one bit of a positive mantissa. *)
Lemma shr_fexp_keeps_positive (m : positive) (e : Z) (l : location) :
  lowestExponent <= e ->
  0 < shr_m (fst (shr_fexp prec emax (Zpos m) e l)) /\
  lowestExponent <= snd (shr_fexp prec emax (Zpos m) e l).
Proof.
  intros He. unfold shr_fexp, shr.
  assert (Hrec : shr_m (shr_record_of_loc (Zpos m) l) = Zpos m)
    by (destruct l as [|[]]; reflexivity).
  destruct (fexp prec emax (Zdigits2 (Zpos m) + e) - e) as [|p|p] eqn:Hn;
    cbn [fst snd]; try (rewrite Hrec; split; [lia | exact He]).
  rewrite iter_shr_1_shifts, Hrec by (rewrite Hrec; lia).
  split; [|lia].
  assert (Hp : Zpos p <= Z.log2 (Zpos m)).
  { unfold fexp in Hn. cbn [Zdigits2] in Hn. rewrite digits_log2 in Hn.
    unfold lowestExponent in He. change (SpecFloat.emin prec emax) with (-1074) in *.
    change prec with 53 in *. lia. }
  pose proof (proj2 (Z.shiftr_nonneg (Zpos m) (Zpos p)) ltac:(lia)) as Hnn.
  destruct (Z.eq_dec (Z.shiftr (Zpos m) (Zpos p)) 0) as [E|E]; [|lia].
  apply Z.shiftr_eq_0_iff in E. lia.
Qed.

(** Rounding a positive value to binary64 gives a positive number or
    [+Infinity], never zero. *)
Lemma rounding_keeps_positive (m : positive) (e : Z) (l : location) :
  lowestExponent <= e ->
  positiveNumber (binary_round_aux prec emax false (Zpos m) e l) = true.
Proof.
  intros He. unfold binary_round_aux.
  destruct (shr_fexp_keeps_positive m e l He) as [Hm1 He1].
  destruct (shr_fexp prec emax (Zpos m) e l) as [r1 e1]. cbn [fst snd] in *.
  assert (Hround : exists m2, round_nearest_even (shr_m r1) (loc_of_shr_record r1)
                              = Zpos m2).
  { unfold round_nearest_even.
    destruct (shr_m r1) as [|m1|m1]; try lia.
    destruct (loc_of_shr_record r1) as [|[]]; try (eexists; reflexivity).
    - destruct (Z.even (Zpos m1)); eexists; reflexivity.
  }
  destruct Hround as [m2 ->].
  destruct (shr_fexp_keeps_positive m2 e1 loc_Exact He1) as [Hm2 _].
  destruct (shr_fexp prec emax (Zpos m2) e1 loc_Exact) as [r2 e2]. cbn [fst snd] in *.
  destruct (shr_m r2); try lia.
  now destruct (e2 <=? emax - prec).
Qed.

Lemma valid_exponent (s : bool) (m : positive) (e : Z) :
  valid_binary (S754_finite s m e) = true -> lowestExponent <= e.
Proof.
  cbn. unfold bounded, canonical_mantissa, fexp. intros H.
  apply andb_prop in H as [H _]. apply Z.eqb_eq in H.
  unfold lowestExponent. lia.
Qed.

(** Adding one to a positive number gives a positive number. *)
Lemma plus_one_keeps_positive (x : float) :
  positiveNumber (Prim2SF x) = true ->
  positiveNumber (Prim2SF (x + 1)%float) = true.
Proof.
  intros Hx. rewrite add_spec. pose proof (Prim2SF_valid x) as Hv.
  change (Prim2SF 1%float) with (S754_finite false 4503599627370496 (-52)).
  destruct (Prim2SF x) as [s|s| |s m e]; try discriminate.
  - destruct s; [discriminate | reflexivity].
  - destruct s; [discriminate|].
    apply valid_exponent in Hv.
    unfold SF64add, SFadd, binary_normalize. cbn [cond_Zopp].
    set (ez := Z.min e (-52)).
    assert (Hez : lowestExponent <= ez)
      by (unfold ez, lowestExponent in *; change (SpecFloat.emin prec emax) with (-1074) in *; lia).
    set (sum := (fst (shl_align m e ez) + fst (shl_align 4503599627370496 (-52) ez))%positive).
    change (Z.pos (fst (shl_align m e ez)) +
            Z.pos (fst (shl_align 4503599627370496 (-52) ez))) with (Z.pos sum).
    cbv beta iota. unfold binary_round.
    destruct (shl_align sum ez (fexp prec emax (Zpos (digits2_pos sum) + ez)))
      as [mz ez'] eqn:Hal.
    apply rounding_keeps_positive.
    unfold shl_align in Hal.
    destruct (fexp prec emax (Zpos (digits2_pos sum) + ez) - ez) eqn:Hd;
      inversion Hal; subst; try exact Hez.
    unfold fexp, lowestExponent. lia.
Qed.

Lemma positive_is_above_zero (x : float) :
  positiveNumber (Prim2SF x) = true -> (0 <? x)%float = true.
Proof.
  intros Hx. rewrite ltb_spec.
  change (Prim2SF 0%float) with (S754_zero false).
  destruct (Prim2SF x) as [s|s| |s m e]; try discriminate;
    destruct s; try discriminate; reflexivity.
Qed.

End BinaryFloatFacts.

(** ** Adaptive scene look *)

Module LookFacts.
Import PrimFloat.
Import Look BinaryFloat BinaryFloatFacts.
Local Open Scope float_scope.

Lemma fold_sample (materials : list Material) :
  forall t : Tally,
    fold_left sample materials t =
    mkTally
      (fold_left (fun count _ => count + 1) (flat_map sampleOf materials)
         (materialCount t))
      (fold_left add (map fst (flat_map sampleOf materials)) (luminanceSum t))
      (fold_left add (map snd (flat_map sampleOf materials)) (metallicSum t)).
Proof.
  induction materials as [|m materials IH]; intros t.
  - now destruct t.
  - cbn [fold_left flat_map]. rewrite IH.
    destruct m as [c metalness|]; reflexivity.
Qed.

(** The accumulators hold the count of the standard materials and the sums
    of their luminance and metalness, added in traversal order. *)
Lemma tally_sums (model : Object3D) :
  tally model =
  mkTally (countOf (samples model)) (sumInOrder (map fst (samples model)))
    (sumInOrder (map snd (samples model))).
Proof. unfold tally. now rewrite fold_sample. Qed.

Lemma counting_keeps_positive {A : Type} (l : list A) :
  forall start : float,
    positiveNumber (FloatOps.Prim2SF start) = true ->
    positiveNumber
      (FloatOps.Prim2SF (fold_left (fun count _ => count + 1) l start)) = true.
Proof.
  induction l as [|x l IH]; intros start Hs; [exact Hs|].
  cbn [fold_left]. apply IH. now apply plus_one_keeps_positive.
Qed.

(** The counter is above zero as soon as one material was counted. *)
Lemma count_is_positive {A : Type} (l : list A) :
  l <> [] -> (0 <? countOf l) = true.
Proof.
  intros Hne. destruct l as [|x l]; [congruence|].
  apply positive_is_above_zero. unfold countOf. cbn [fold_left].
  apply counting_keeps_positive. reflexivity.
Qed.

Lemma countOf_map {A B : Type} (f : A -> B) (l : list A) :
  countOf (map f l) = countOf l.
Proof.
  unfold countOf. generalize 0. induction l as [|x l IH]; intros start;
    [reflexivity | apply IH].
Qed.

Lemma averages_in_order (model : Object3D) :
  (samples model = [] ->
   averageLuminance (tally model) = 0.55 /\
   averageMetalness (tally model) = 0) /\
  (samples model <> [] ->
   averageLuminance (tally model) = meanInOrder (map fst (samples model)) /\
   averageMetalness (tally model) = meanInOrder (map snd (samples model))).
Proof.
  rewrite tally_sums. unfold averageLuminance, averageMetalness, meanInOrder.
  cbn [materialCount luminanceSum metallicSum]. split; intros Hs.
  - rewrite Hs. split; reflexivity.
  - rewrite !countOf_map, (count_is_positive _ Hs). split; reflexivity.
Qed.


Lemma chooseLook_bands (luminance metalness : float) :
  ((luminance <? 0.34) = true ->
   chooseLook luminance metalness = lowLuminanceLook) /\
  ((luminance <? 0.34) = false -> (0.78 <? luminance) = true ->
   chooseLook luminance metalness = highLuminanceLook) /\
  ((luminance <? 0.34) = false -> (0.78 <? luminance) = false ->
   (0.45 <? metalness) = true ->
   chooseLook luminance metalness = metalLook) /\
  ((luminance <? 0.34) = false -> (0.78 <? luminance) = false ->
   (0.45 <? metalness) = false ->
   chooseLook luminance metalness = neutralLook).
Proof.
  unfold chooseLook, lowThreshold, highThreshold, metalThreshold.
  repeat split; intros; repeat
    match goal with H : _ = _ |- _ => rewrite H; clear H end; reflexivity.
Qed.

(** C2 as stated fails on the naming of the two outer bands: a black model
    (mean luminance below the low threshold) gets the near-white background
    [0xf0f0ed], and a white model (mean luminance above the high threshold)
    gets the dark blue-grey background [0x242734]. *)
Lemma dark_background_goes_with_high_luminance :
  (averageLuminance (tally blackModel) <? lowThreshold) = true /\
  applyAdaptiveSceneLook blackModel (Some neutralLook) = Some lowLuminanceLook /\
  background lowLuminanceLook = 0xf0f0ed%N /\
  ~ isDarkTone (background lowLuminanceLook) /\
  (highThreshold <? averageLuminance (tally whiteModel)) = true /\
  applyAdaptiveSceneLook whiteModel (Some neutralLook) = Some highLuminanceLook /\
  background highLuminanceLook = 0x242734%N /\
  ~ isLightTone (background highLuminanceLook).
Proof.
  repeat split; try reflexivity; vm_compute; discriminate.
Qed.

(** The means are binary64 means, so rounding decides at the edge of a band:
    two mid-grey materials of metalness 0.34 and 0.56 average to
    0.45000000000000007 and get the metal look, and two greys of level 0.06
    and 0.62 average to 0.33999999999999997 and get the low-luminance
    look. *)
Lemma rounding_decides_at_the_edge :
  applyAdaptiveSceneLook (Object (Mesh [gray 0.5 0.34; gray 0.5 0.56]) [])
    (Some neutralLook) = Some metalLook /\
  applyAdaptiveSceneLook (Object (Mesh [gray 0.06 0; gray 0.62 0]) [])
    (Some neutralLook) = Some lowLuminanceLook.
Proof. split; reflexivity. Qed.

(** C2, amended: the function adds up, in binary64 and in traversal order,
    the luminance (weights 0.2126, 0.7152, 0.0722) and the metalness of the
    standard materials and divides each sum by their count, with 0.55 and 0
    when there is none; it assigns exactly one of four constant looks: the
    light-background look when the mean luminance is below 0.34, the dark
    cool-background look when it is above 0.78, the metal look when it is
    neither and the mean metalness is above 0.45, the neutral look
    otherwise. *)
Theorem adaptive_look_by_bands (model : Object3D) (current : SceneLook) :
  let luminance := averageLuminance (tally model) in
  let metalness := averageMetalness (tally model) in
  exists look,
    applyAdaptiveSceneLook model (Some current) = Some look /\
    (forall c, luminanceOf c =
               red c * 0.2126 + green c * 0.7152 + blue c * 0.0722) /\
    (samples model = [] -> luminance = 0.55 /\ metalness = 0) /\
    (samples model <> [] ->
     luminance = meanInOrder (map fst (samples model)) /\
     metalness = meanInOrder (map snd (samples model))) /\
    ((luminance <? 0.34) = true -> look = lowLuminanceLook) /\
    ((luminance <? 0.34) = false -> (0.78 <? luminance) = true ->
     look = highLuminanceLook) /\
    ((luminance <? 0.34) = false -> (0.78 <? luminance) = false ->
     (0.45 <? metalness) = true -> look = metalLook) /\
    ((luminance <? 0.34) = false -> (0.78 <? luminance) = false ->
     (0.45 <? metalness) = false -> look = neutralLook) /\
    lowLuminanceLook = mkSceneLook 0xf0f0ed 1.12 1.2 1.25 /\
    highLuminanceLook = mkSceneLook 0x242734 0.92 0.95 1.45 /\
    metalLook = mkSceneLook 0xdfe5ec 1.15 1.18 1.55 /\
    neutralLook = mkSceneLook 0xe8e8e8 1 1.1 1.1 /\
    isLightTone (background lowLuminanceLook) /\
    isDarkTone (background highLuminanceLook).
Proof.
  cbn zeta.
  exists (chooseLook (averageLuminance (tally model))
            (averageMetalness (tally model))).
  destruct (averages_in_order model) as [Hnone Hsome].
  destruct (chooseLook_bands (averageLuminance (tally model))
              (averageMetalness (tally model))) as (Hlow & Hhigh & Hmetal & Hneutral).
  split; [reflexivity|].
  split; [reflexivity|].
  repeat (split; [assumption|]).
  repeat split; reflexivity.
Qed.

End LookFacts.

(** ** Camera auto-framing *)

Module FramingFacts.
Import Framing.
Local Open Scope R_scope.

Lemma ltb_false (a b : R) : ltb a b = false -> b <= a.
Proof. unfold ltb. destruct (Rlt_dec a b); [discriminate | lra]. Qed.

Lemma size_nonnegative (box : Box3) :
  0 <= vx (getSize box) /\ 0 <= vy (getSize box) /\ 0 <= vz (getSize box).
Proof.
  unfold getSize. destruct (isEmpty box) eqn:E; cbn; [lra|].
  unfold isEmpty in E. apply orb_false_iff in E as [E Ez].
  apply orb_false_iff in E as [Ex Ey].
  apply ltb_false in Ex, Ey, Ez. lra.
Qed.

Lemma maxDimension_cases (box : Box3) :
  (largestExtent box = 0 -> maxDimension box = 1) /\
  (largestExtent box <> 0 -> maxDimension box = largestExtent box) /\
  0 < maxDimension box.
Proof.
  unfold maxDimension. fold (largestExtent box).
  destruct (size_nonnegative box) as (Hx & _).
  assert (Hpos : 0 <= largestExtent box).
  { unfold largestExtent.
    pose proof (Rmax_l (vx (getSize box))
                  (Rmax (vy (getSize box)) (vz (getSize box)))). lra. }
  destruct (Req_dec_T (largestExtent box) 0) as [E|E].
  - repeat split; [intros; congruence | lra].
  - repeat split; [intros; congruence | lra].
Qed.

Lemma unit_box_extent : maxDimension unitBox = 2.
Proof.
  assert (Hl : largestExtent unitBox = 2).
  { assert (Hfull : isEmpty unitBox = false).
    { unfold isEmpty, ltb, unitBox. cbn [vx vy vz boxMin boxMax].
      repeat (destruct (Rlt_dec _ _); try lra); reflexivity. }
    unfold largestExtent, getSize. rewrite Hfull.
    unfold unitBox. cbn [vx vy vz boxMin boxMax].
    unfold Rmax. repeat (destruct (Rle_dec _ _)); lra. }
  destruct (maxDimension_cases unitBox) as (_ & H & _). rewrite H; lra.
Qed.

Lemma PI_window : 3.1415 < PI < 3.1422.
Proof.
  pose proof (PI_2_3_7_ineq 1) as [Hlo Hhi].
  unfold sum_f_R0, tg_alt, PI_2_3_7_tg, Ratan_seq in Hlo, Hhi.
  simpl in Hlo, Hhi. split; lra.
Qed.

(** Taylor windows of sine and cosine, from the alternating series. *)
Lemma sin_cos_window (a : R) :
  0 <= a -> a <= 2 ->
  a - a^3/6 + a^5/120 - a^7/5040 <= sin a <= a - a^3/6 + a^5/120 /\
  1 - a^2/2 + a^4/24 - a^6/720 <= cos a <= 1 - a^2/2 + a^4/24.
Proof.
  intros H0 H2.
  destruct (pre_sin_bound a 1) as [Hs1 _]; [lra|lra|].
  destruct (pre_sin_bound a 0) as [_ Hs2]; [lra|lra|].
  destruct (pre_cos_bound a 1) as [Hc1 _]; [lra|lra|].
  destruct (pre_cos_bound a 0) as [_ Hc2]; [lra|lra|].
  unfold sin_approx, sin_term, cos_approx, cos_term in *.
  simpl in Hs1, Hs2, Hc1, Hc2.
  repeat split; lra.
Qed.

Lemma div_below (s c t : R) : 0 < c -> s < t * c -> s / c < t.
Proof.
  intros Hc H. apply (Rmult_lt_reg_r c); [exact Hc|].
  replace (s / c * c) with s by (field; lra). exact H.
Qed.

Lemma div_above (s c t : R) : 0 < c -> t * c < s -> t < s / c.
Proof.
  intros Hc H. apply (Rmult_lt_reg_r c); [exact Hc|].
  replace (s / c * c) with s by (field; lra). exact H.
Qed.

(** The tangent of half of 55 degrees. *)
Lemma tan_half_fov_window : 0.5204 < tan (fovRadians mountedCamera / 2) < 0.5208.
Proof.
  pose proof PI_window as [Hlo Hhi].
  assert (Hx : 0.4799 < fovRadians mountedCamera / 2 < 0.4801)
    by (unfold fovRadians, mountedCamera; cbn; lra).
  destruct (sin_cos_window 0.4799) as [[Hs1 _] [_ Hc1]]; [lra|lra|].
  destruct (sin_cos_window 0.4801) as [[_ Hs2] [Hc2 _]]; [lra|lra|].
  assert (Hc1' : 0 < cos 0.4799) by (apply cos_gt_0; lra).
  assert (Hc2' : 0 < cos 0.4801) by (apply cos_gt_0; lra).
  split.
  - apply Rlt_trans with (tan 0.4799); [|apply tan_increasing; lra].
    unfold tan. apply div_above; [exact Hc1'|]. lra.
  - apply Rlt_trans with (tan 0.4801); [apply tan_increasing; lra|].
    unfold tan. apply div_below; [exact Hc2'|]. lra.
Qed.

Lemma unit_box_distance_window :
  1.9201 < distance unitBox mountedCamera < 1.9217.
Proof.
  pose proof tan_half_fov_window as [Hlo Hhi].
  unfold distance. rewrite unit_box_extent.
  replace (2 / (2 * tan (fovRadians mountedCamera / 2)))
    with (1 / tan (fovRadians mountedCamera / 2)) by (field; lra).
  split; [apply div_above | apply div_below]; lra.
Qed.

(** C6 as stated fails on its figures: for the unit box and the 55 degree
    camera the distance exceeds 1.91 by more than 0.01, the minimum orbit
    distance exceeds 0.382 by more than 0.002 and the maximum exceeds 15.3 by
    more than 0.06. *)
Lemma unit_box_figures_are_larger :
  1.91 + 0.01 < distance unitBox mountedCamera /\
  0.382 + 0.002 < distance unitBox mountedCamera * 0.2 /\
  15.3 + 0.06 < distance unitBox mountedCamera * 8.
Proof. pose proof unit_box_distance_window. repeat split; lra. Qed.

(** C6, amended: [frameModel] takes the largest extent of the box, or 1 when
    that is zero, divides it by twice the tangent of half the vertical field
    of view, puts the camera at (1.2 d, 0.8 d, 1.2 d), sets near and far to
    max(d/120, 0.01) and max(120 d, 120) and the orbit limits to 0.2 d and
    8 d; for the unit box and 55 degrees, d is about 1.92, the minimum
    distance about 0.384 and the maximum about 15.4. *)
Theorem frameModel_places_camera (box : Box3) (modelAt : Vector3)
    (cam : Camera) (ctl : Controls) :
  let d := maxDimension box / (2 * tan (fov cam * PI / 180 / 2)) in
  (largestExtent box = 0 -> maxDimension box = 1) /\
  (largestExtent box <> 0 -> maxDimension box = largestExtent box) /\
  0 < maxDimension box /\
  (exists rig,
     frameModel box modelAt (Some (cam, ctl)) = Some rig /\
     modelPosition rig = sub modelAt (getCenter box) /\
     vx (position (camera rig)) = 1.2 * d /\
     vy (position (camera rig)) = 0.8 * d /\
     vz (position (camera rig)) = 1.2 * d /\
     near (camera rig) = Rmax (d / 120) 0.01 /\
     far (camera rig) = Rmax (d * 120) 120 /\
     target (controls rig) = mkVector3 0 0 0 /\
     minDistance (controls rig) = 0.2 * d /\
     maxDistance (controls rig) = 8 * d) /\
  (let d55 := distance unitBox mountedCamera in
   d55 = 2 / (2 * tan (55 * PI / 180 / 2)) /\
   Rabs (d55 - 1.92) < 0.005 /\
   Rabs (d55 * 0.2 - 0.384) < 0.0005 /\
   Rabs (d55 * 8 - 15.4) < 0.05).
Proof.
  cbn zeta. destruct (maxDimension_cases box) as (H0 & H1 & Hpos).
  repeat (split; [assumption|]). split.
  - eexists. split; [reflexivity|]. unfold distance, fovRadians. cbn.
    repeat split; ring.
  - pose proof unit_box_distance_window as [Hlo Hhi]. split.
    + unfold distance, fovRadians, mountedCamera. cbn.
      now rewrite unit_box_extent.
    + repeat split; apply Rabs_def1; lra.
Qed.

End FramingFacts.

(** ** Draggable information panel *)

Module PanelFacts.
Import Panel.
Local Open Scope Q_scope.

Lemma Qmax_keep (x y : Q) : y <= x -> Qmax x y = x.
Proof.
  intros H. unfold Qmax, GenericMinMax.gmax.
  destruct (Qcompare_spec x y) as [E|L|G]; try reflexivity. lra.
Qed.

Lemma Qmin_keep (x y : Q) : x <= y -> Qmin x y = x.
Proof.
  intros H. unfold Qmin, GenericMinMax.gmin.
  destruct (Qcompare_spec x y) as [E|L|G]; try reflexivity. lra.
Qed.


Ltac split_extremum t spec :=
  let H := fresh in let E := fresh in
  destruct spec as [[H E]|[H E]]; generalize dependent t; intros.

Ltac clamp_cases :=
  repeat match goal with
         | |- context [Qmin ?a ?b] => split_extremum (Qmin a b) (Q.min_spec a b)
         | |- context [Qmax ?a ?b] => split_extremum (Qmax a b) (Q.max_spec a b)
         | _ : context [Qmin ?a ?b] |- _ =>
             split_extremum (Qmin a b) (Q.min_spec a b)
         | _ : context [Qmax ?a ?b] |- _ =>
             split_extremum (Qmax a b) (Q.max_spec a b)
         end.

Lemma clampNumber_range (value lo hi : Q) :
  lo <= hi -> lo <= clampNumber value lo hi <= hi.
Proof. intros H. unfold clampNumber. clamp_cases; split; lra. Qed.

Lemma clampNumber_inside (value lo hi : Q) :
  lo <= value <= hi -> clampNumber value lo hi = value.
Proof.
  intros [H1 H2]. unfold clampNumber.
  rewrite (Qmax_keep value lo H1). now apply Qmin_keep.
Qed.

Lemma upper_at_least_margin (h p : Q) : margin <= upperBound h p.
Proof. unfold upperBound. clamp_cases; unfold margin in *; lra. Qed.

Lemma clamp_lands_within (dom : Dom) (position : Point) :
  withinBounds dom (clampPanelPosition dom position).
Proof.
  unfold withinBounds, clampPanelPosition.
  destruct (hostElement dom) as [host|]; [|exact I].
  destruct (panelElement dom) as [panel|]; [|exact I].
  cbn [px py]. fold (upperBound (extentWidth host) (extentWidth panel)).
  fold (upperBound (extentHeight host) (extentHeight panel)).
  split; apply clampNumber_range, upper_at_least_margin.
Qed.

(** X1: whatever position is requested, [clampPanelPosition] returns one whose
    coordinates lie between the margin and the upper bound
    max(host - panel - margin, margin), on both axes, whenever the host and
    the panel exist. *)
Theorem clamped_position_is_within_bounds (dom : Dom) (position : Point) :
  withinBounds dom (clampPanelPosition dom position).
Proof. apply clamp_lands_within. Qed.

Lemma clamp_fixes_inside (dom : Dom) (position : Point) :
  hostElement dom <> None -> panelElement dom <> None ->
  withinBounds dom position -> clampPanelPosition dom position = position.
Proof.
  unfold withinBounds, clampPanelPosition. intros Hh Hp.
  destruct (hostElement dom) as [host|]; [|congruence].
  destruct (panelElement dom) as [panel|]; [|congruence].
  intros [Hx Hy]. unfold upperBound in *.
  rewrite (clampNumber_inside _ _ _ Hx), (clampNumber_inside _ _ _ Hy).
  now destruct position.
Qed.

(** X2: when the host is too narrow (or too low) for the panel and both
    margins, the lower bound wins: the coordinate is pinned at the margin. *)
Theorem narrow_host_pins_panel_at_margin (host panel : Element)
    (position : Point) :
  let clamped := clampPanelPosition (mkDom (Some host) (Some panel)) position in
  (extentWidth host - extentWidth panel - margin < margin ->
   px clamped == margin) /\
  (extentHeight host - extentHeight panel - margin < margin ->
   py clamped == margin).
Proof.
  cbn zeta. unfold clampPanelPosition, clampNumber. cbn.
  split; intros H; clamp_cases; unfold margin in *; lra.
Qed.

(** X3: clamping twice is clamping once; a position already within the
    bounds is returned as it is, and so is any position while the host or the
    panel is missing. *)
Theorem clamping_is_idempotent (dom : Dom) (position : Point) :
  clampPanelPosition dom (clampPanelPosition dom position)
    = clampPanelPosition dom position /\
  (hostElement dom <> None -> panelElement dom <> None ->
   withinBounds dom position -> clampPanelPosition dom position = position) /\
  (hostElement dom = None \/ panelElement dom = None ->
   clampPanelPosition dom position = position).
Proof.
  split; [|split].
  - destruct (hostElement dom) as [host|] eqn:Hh;
      [destruct (panelElement dom) as [panel|] eqn:Hp|].
    + apply clamp_fixes_inside;
        [congruence | congruence | apply clamp_lands_within].
    + unfold clampPanelPosition. now rewrite Hh, Hp.
    + unfold clampPanelPosition. now rewrite Hh.
  - apply clamp_fixes_inside.
  - unfold clampPanelPosition. intros [->|Hp]; [reflexivity|].
    rewrite Hp. now destruct (hostElement dom).
Qed.

Lemma panelStep_consistent (s : PanelState) (e : PanelEvent) :
  panelConsistent s -> panelConsistent (panelStep s e).
Proof.
  unfold panelConsistent. intros Hsame.
  destruct e as [ev dom|ev dom|ev|dom|dom|]; cbn [panelStep].
  - unfold onPanelPointerDown. destruct (negb _); [exact Hsame|].
    destruct (panelElement dom); [|exact Hsame].
    split; cbn; [split; [discriminate | reflexivity] | reflexivity].
  - destruct (Bool.bool_dec (listening s) true) as [El|El];
      [rewrite El | apply not_true_is_false in El; rewrite El; exact Hsame].
    unfold onPanelPointerMove.
    destruct (negb _); [exact Hsame|].
    destruct (hostElement dom); [|exact Hsame].
    destruct (panelElement dom); exact Hsame.
  - destruct (Bool.bool_dec (listening s) true) as [El|El];
      [rewrite El | apply not_true_is_false in El; rewrite El; exact Hsame].
    unfold onPanelPointerUp. destruct (negb _); [exact Hsame|].
    split; cbn; [split; [discriminate | congruence] | discriminate].
  - exact Hsame.
  - exact Hsame.
  - split; cbn; [exact (proj1 Hsame) | discriminate].
Qed.

(** X4: along every sequence of panel events the dragging flag is set
    exactly while a pointer is captured, and the window listeners are
    registered only during a drag. *)
Theorem drag_flag_tracks_pointer (events : list PanelEvent) :
  let s := panelRun initialPanel events in
  (isPanelDragging s = true <-> panelPointerId s <> None) /\
  (listening s = true -> isPanelDragging s = true).
Proof.
  cbn zeta. unfold panelRun.
  assert (H : panelConsistent initialPanel)
    by (split; cbn; [split; [discriminate | congruence] | discriminate]).
  revert H. generalize initialPanel.
  induction events as [|e events IH]; intros s H; [exact H|].
  cbn [fold_left]. apply IH. now apply panelStep_consistent.
Qed.

(** X5: the panel does not jump and follows the pointer: with a layout and
    pointer coordinates in whole pixels, after a primary button press on a
    panel laid out at its recorded position, a move of the same pointer by
    (dx, dy) puts the panel at its old position plus (dx, dy), when that
    point is within the bounds. *)
Theorem drag_follows_pointer (s : PanelState) (host panel : Element)
    (down : PointerEvent) (dx dy : Q) :
  let dom := mkDom (Some host) (Some panel) in
  let move := mkPointerEvent (button down) (pointerId down)
                (clientX down + dx) (clientY down + dy) in
  wholeElement host = true ->
  wholeElement panel = true ->
  wholePixels (clientX down) = true ->
  wholePixels (clientY down) = true ->
  wholePixels dx = true ->
  wholePixels dy = true ->
  button down = 0%Z ->
  rectLeft panel == rectLeft host + px (panelPosition s) ->
  rectTop panel == rectTop host + py (panelPosition s) ->
  withinBounds dom (mkPoint (px (panelPosition s) + dx) (py (panelPosition s) + dy)) ->
  let s' := panelStep (panelStep s (PointerDown down dom)) (PointerMove move dom) in
  samePoint (panelPosition s')
    (mkPoint (px (panelPosition s) + dx) (py (panelPosition s) + dy)).
Proof.
  cbn zeta. intros _ _ _ _ _ _ Hb Hl Ht [Hx Hy].
  cbn [panelStep]. unfold onPanelPointerDown. rewrite Hb. cbn.
  unfold onPanelPointerMove, capturedBy. cbn. rewrite Z.eqb_refl. cbn.
  cbn in Hx, Hy. unfold samePoint. cbn. unfold clampNumber, upperBound in *.
  split; clamp_cases; lra.
Qed.

Lemma drag_follows_pointer_witness :
  let dom := sampleDom (mkPoint 16 16) in
  let down := mkPointerEvent 0 1 30 30 in
  let move := mkPointerEvent 0 1 (30 + 100) (30 + 50) in
  let s' := panelStep (panelStep initialPanel (PointerDown down dom))
              (PointerMove move dom) in
  samePoint (panelPosition s') (mkPoint (16 + 100) (16 + 50)).
Proof.
  apply (drag_follows_pointer initialPanel sampleHost
           (samplePanel (mkPoint 16 16)) (mkPointerEvent 0 1 30 30) 100 50).
  - reflexivity.
  - reflexivity.
  - reflexivity.
  - reflexivity.
  - reflexivity.
  - reflexivity.
  - reflexivity.
  - reflexivity.
  - reflexivity.
  - vm_compute. repeat split; discriminate.
Defined.

End PanelFacts.

(** ** Drop overlay *)

Module DropZoneFacts.
Import DropZone.
Local Open Scope Z_scope.

Lemma dragStep_consistent (s : DragState) (e : DragEvent) :
  dragConsistent s -> dragConsistent (dragStep s e).
Proof.
  unfold dragConsistent. intros [Hpos Hflag].
  destruct e as [hasFiles| |]; cbn.
  - destruct hasFiles; cbn; [|now split].
    split; [lia|]. symmetry. apply Z.ltb_lt. lia.
  - split; [lia|].
    destruct (Z.eqb_spec (Z.max (dragDepth s - 1) 0) 0) as [E|E].
    + rewrite E. reflexivity.
    + rewrite Hflag. destruct (Z.ltb_spec 0 (dragDepth s)); 
      destruct (Z.ltb_spec 0 (Z.max (dragDepth s - 1) 0)); lia || reflexivity.
  - split; [lia | reflexivity].
Qed.

(** X6: along every sequence of drag events the depth counter is never
    negative and the drop overlay is shown exactly while it is positive. *)
Theorem overlay_shown_iff_depth_positive (events : list DragEvent) :
  let s := dragRun initialDrag events in
  0 <= dragDepth s /\ (isDragging s = true <-> 0 < dragDepth s).
Proof.
  cbn zeta.
  assert (H : dragConsistent (dragRun initialDrag events)).
  { unfold dragRun.
    assert (H0 : dragConsistent initialDrag) by (split; cbn; [lia | reflexivity]).
    revert H0. generalize initialDrag.
    induction events as [|e events IH]; intros s H; [exact H|].
    cbn [fold_left]. apply IH. now apply dragStep_consistent. }
  destruct H as [Hpos Hflag]. split; [exact Hpos|].
  rewrite Hflag. apply Z.ltb_lt.
Qed.

Lemma leaves_unwind (m : nat) :
  forall s, dragConsistent s -> dragDepth s <= Z.of_nat m ->
  dragRun s (repeat DragLeave m) = initialDrag.
Proof.
  induction m as [|m IH]; intros s [Hpos Hflag] Hd.
  - cbn. destruct s as [d f]. cbn in *. assert (d = 0) by lia. subst d.
    cbn in Hflag. now subst f.
  - cbn [repeat dragRun fold_left]. apply IH.
    + now apply (dragStep_consistent s DragLeave).
    + cbn. lia.
Qed.

Lemma enters_wind (n : nat) (s : DragState) :
  dragConsistent s ->
  dragConsistent (dragRun s (repeat (DragEnter true) n)) /\
  dragDepth (dragRun s (repeat (DragEnter true) n)) = dragDepth s + Z.of_nat n.
Proof.
  revert s. induction n as [|n IH]; intros s H.
  - cbn. split; [exact H | lia].
  - cbn [repeat dragRun fold_left].
    destruct (IH (dragStep s (DragEnter true)))
      as [Hc Hd]; [now apply dragStep_consistent|].
    split; [exact Hc|]. unfold dragRun in Hd. rewrite Hd. cbn. lia.
Qed.

(** X7: n nested drag-enter events followed by at least n drag-leave events
    bring the overlay back to its initial state; surplus leave events are
    absorbed at depth zero. *)
Theorem nested_enters_and_leaves_balance (n m : nat) :
  (n <= m)%nat ->
  dragRun initialDrag (repeat (DragEnter true) n ++ repeat DragLeave m)
  = initialDrag.
Proof.
  intros Hnm. unfold dragRun. rewrite fold_left_app.
  assert (H0 : dragConsistent initialDrag) by (split; cbn; [lia | reflexivity]).
  destruct (enters_wind n initialDrag H0) as [Hc Hd].
  apply leaves_unwind; [exact Hc|]. unfold dragRun in Hd. rewrite Hd. cbn. lia.
Qed.

Lemma nested_enters_and_leaves_balance_witness :
  dragRun initialDrag (repeat (DragEnter true) 2 ++ repeat DragLeave 3)
  = initialDrag.
Proof. apply (nested_enters_and_leaves_balance 2 3). lia. Defined.

End DropZoneFacts.

(** ** Path normalizer, further properties *)

Module PathNormalizerMore.
Import PathNormalizer.
Local Open Scope string_scope.
Local Open Scope nat_scope.

Lemma mapR_inv {A B : Type} (f : A -> B) (x : Result A) (r : B) :
  mapR f x = Ok r -> exists a, x = Ok a /\ r = f a.
Proof. destruct x as [a|e]; cbn; [intros [= <-]; now exists a | discriminate]. Qed.

Lemma emit_inv (octets : list N) (k : Result string) (r : string) :
  emit octets k = Ok r -> exists a, k = Ok a /\ r = bytesToString octets a.
Proof. unfold emit. destruct (validUtf8 octets); [apply mapR_inv | discriminate]. Qed.

Lemma decode_never_longer :
  forall n s r, String.length s <= n -> decodeURIComponent s = Ok r ->
                String.length r <= String.length s.
Proof.
  induction n as [|n IH]; intros s r Hn Hd.
  - destruct s; [|cbn in Hn; lia]. now injection Hd as <-.
  - destruct s as [|c rest]; [now injection Hd as <-|].
    cbn [decodeURIComponent] in Hd. cbn [String.length] in Hn.
    destruct (Ascii.eqb c "%").
    + destruct rest as [|a [|b r1]]; try discriminate.
      destruct (hexByte a b) as [b1|]; [|discriminate].
      destruct (leadingOnes b1) as [|[|[|[|[|?]]]]]; try discriminate.
      * apply mapR_inv in Hd as (r' & Hr' & ->).
        apply IH in Hr'; cbn in *; lia.
      * destruct r1 as [|p2 [|a2 [|b2 r2]]]; try discriminate.
        destruct (escapedByte p2 a2 b2); [|discriminate].
        apply emit_inv in Hd as (r' & Hr' & ->).
        apply IH in Hr'; cbn in *; lia.
      * destruct r1 as [|p2 [|a2 [|b2 [|p3 [|a3 [|b3 r3]]]]]]; try discriminate.
        destruct (escapedByte p2 a2 b2); [|discriminate].
        destruct (escapedByte p3 a3 b3); [|discriminate].
        apply emit_inv in Hd as (r' & Hr' & ->).
        apply IH in Hr'; cbn in *; lia.
      * destruct r1 as [|p2 [|a2 [|b2 [|p3 [|a3 [|b3 [|p4 [|a4 [|b4 r4]]]]]]]]];
          try discriminate.
        destruct (escapedByte p2 a2 b2); [|discriminate].
        destruct (escapedByte p3 a3 b3); [|discriminate].
        destruct (escapedByte p4 a4 b4); [|discriminate].
        apply emit_inv in Hd as (r' & Hr' & ->).
        apply IH in Hr'; cbn in *; lia.
    + apply mapR_inv in Hd as (r' & Hr' & ->).
      apply IH in Hr'; cbn in *; lia.
Qed.

Lemma length_dropChars (n : nat) (s : string) :
  String.length (dropChars n s) = String.length s - n.
Proof.
  revert s. induction n as [|n IH]; intros s; cbn; [lia|].
  destruct s as [|c s]; cbn; [reflexivity | apply IH].
Qed.

Lemma afterFirstSlash_length (s tail : string) (n : nat) :
  afterFirstSlash s = Some (n, tail) -> String.length tail < String.length s.
Proof.
  revert n tail. induction s as [|c s IH]; intros n tail; [discriminate|].
  cbn. destruct (Ascii.eqb c "/"); [intros [= <- <-]; lia|].
  destruct (afterFirstSlash s) as [[m t]|]; [|discriminate].
  intros [= <- <-]. specialize (IH m t eq_refl). lia.
Qed.

Lemma stripBlobPrefix_length (s : string) :
  String.length (stripBlobPrefix s) <= String.length s.
Proof.
  unfold stripBlobPrefix. destruct (String.prefix "blob:" s); [|lia].
  destruct (afterFirstSlash (dropChars 5 s)) as [[[|n] tail]|] eqn:E; try lia.
  apply afterFirstSlash_length in E. rewrite length_dropChars in E. lia.
Qed.

Lemma stripDotSlash_length (s : string) :
  String.length (stripDotSlash s) <= String.length s.
Proof.
  unfold stripDotSlash.
  destruct (String.prefix "./" s); [rewrite length_dropChars; lia|].
  destruct (String.prefix "/" s); [rewrite length_dropChars; lia | lia].
Qed.

Lemma stripLeadingSlash_length (s : string) :
  String.length (stripLeadingSlash s) <= String.length s.
Proof.
  unfold stripLeadingSlash.
  destruct (String.prefix "/" s); [rewrite length_dropChars; lia | lia].
Qed.

Lemma backslashes_length (s : string) :
  String.length (backslashesToSlashes s) = String.length s.
Proof. induction s as [|c s IH]; cbn; [reflexivity | now rewrite IH]. Qed.

Lemma before_length (s : string) :
  String.length (beforeQueryOrHash s) <= String.length s.
Proof.
  induction s as [|c s IH]; cbn; [lia|].
  destruct (Ascii.eqb c "?" || Ascii.eqb c "#"); cbn; lia.
Qed.

(** X10: normalizing never makes a reference longer. *)
Theorem normal_form_is_never_longer (s r : string) :
  normalizeAssetPath s = Ok r -> String.length r <= String.length s.
Proof.
  unfold normalizeAssetPath.
  destruct (decodeURIComponent s) as [d|e] eqn:Hd; [|discriminate].
  cbn. intros [= <-].
  pose proof (decode_never_longer _ s d (le_n _) Hd).
  pose proof (before_length
    (backslashesToSlashes (stripLeadingSlash (stripDotSlash (stripBlobPrefix d))))).
  rewrite backslashes_length in *.
  pose proof (stripLeadingSlash_length (stripDotSlash (stripBlobPrefix d))).
  pose proof (stripDotSlash_length (stripBlobPrefix d)).
  pose proof (stripBlobPrefix_length d). lia.
Qed.

Lemma decode_plain_prefix (s t : string) :
  containsChar "%" s = false ->
  decodeURIComponent (s ++ t) = mapR (append s) (decodeURIComponent t).
Proof.
  induction s as [|c s IH]; intros H.
  - change ("" ++ t) with t. destruct (decodeURIComponent t); reflexivity.
  - cbn [containsChar] in H. apply orb_false_iff in H as [Hc Hs].
    change (String c s ++ t) with (String c (s ++ t)).
    cbn [decodeURIComponent].
    rewrite Hc, (IH Hs). destruct (decodeURIComponent t); reflexivity.
Qed.

Lemma prefix_before_mark (p s t : string) (mark : ascii) :
  containsChar mark p = false ->
  String.prefix p (s ++ String mark t) = String.prefix p s.
Proof.
  revert s. induction p as [|c p IH]; intros s H; [now destruct s|].
  cbn [containsChar] in H. apply orb_false_iff in H as [Hc Hp].
  destruct s as [|d s].
  - change ("" ++ String mark t) with (String mark t). cbn.
    destruct (ascii_dec c mark) as [->|Hne]; [|reflexivity].
    now rewrite Ascii.eqb_refl in Hc.
  - change (String d s ++ String mark t) with (String d (s ++ String mark t)).
    cbn. destruct (ascii_dec c d); [now apply IH | reflexivity].
Qed.

Lemma prefix_length (p s : string) :
  String.prefix p s = true -> String.length p <= String.length s.
Proof.
  revert s. induction p as [|c p IH]; intros s; [cbn; lia|].
  destruct s as [|d s]; cbn; [discriminate|].
  destruct (ascii_dec c d); [|discriminate].
  intros H. apply IH in H. lia.
Qed.

Lemma dropChars_app (n : nat) (s t : string) :
  n <= String.length s -> dropChars n (s ++ t) = dropChars n s ++ t.
Proof.
  revert s. induction n as [|n IH]; intros s H; [reflexivity|].
  destruct s as [|c s]; [cbn in H; lia|].
  change (String c s ++ t) with (String c (s ++ t)). cbn in *. apply IH. lia.
Qed.

Lemma backslashes_app (s t : string) :
  backslashesToSlashes (s ++ t) = backslashesToSlashes s ++ backslashesToSlashes t.
Proof.
  induction s as [|c s IH]; [reflexivity|].
  change (String c s ++ t) with (String c (s ++ t)). cbn. now rewrite IH.
Qed.

Lemma before_cuts_at_mark (s t : string) (mark : ascii) :
  mark = "?"%char \/ mark = "#"%char ->
  beforeQueryOrHash (s ++ String mark t) = beforeQueryOrHash s.
Proof.
  intros Hm. induction s as [|c s IH].
  - change ("" ++ String mark t) with (String mark t).
    destruct Hm as [->| ->]; reflexivity.
  - change (String c s ++ String mark t) with (String c (s ++ String mark t)).
    cbn. now rewrite IH.
Qed.

(** X11: a query string or a fragment is dropped whatever it holds: for a
    reference without percent sign that does not begin with [blob:], adding
    [?] or [#] and any text that can be decoded does not change the normal
    form. *)
Theorem query_and_fragment_are_ignored (s t : string) (mark : ascii) :
  mark = "?"%char \/ mark = "#"%char ->
  containsChar "%" s = false ->
  String.prefix "blob:" s = false ->
  returns (decodeURIComponent t) ->
  normalizeAssetPath (s ++ String mark t) = normalizeAssetPath s.
Proof.
  intros Hm Hs Hblob [t' Ht].
  assert (Hmark : decodeURIComponent (String mark t) = Ok (String mark t')).
  { cbn [decodeURIComponent]. destruct Hm as [->| ->]; cbn; now rewrite Ht. }
  unfold normalizeAssetPath.
  rewrite (decode_plain_prefix s (String mark t) Hs), Hmark.
  rewrite (PathNormalizerFacts.decode_without_percent s Hs). cbn.
  f_equal.
  assert (Hp : forall p, containsChar mark p = false ->
                         String.prefix p (s ++ String mark t') = String.prefix p s)
    by (intros p; apply prefix_before_mark).
  assert (Hblob' : stripBlobPrefix (s ++ String mark t') = s ++ String mark t').
  { unfold stripBlobPrefix. rewrite Hp, Hblob; [reflexivity|].
    destruct Hm as [->| ->]; reflexivity. }
  assert (Hblob'' : stripBlobPrefix s = s)
    by (unfold stripBlobPrefix; now rewrite Hblob).
  rewrite Hblob', Hblob''.
  assert (Hdot : stripDotSlash (s ++ String mark t')
                 = stripDotSlash s ++ String mark t').
  { unfold stripDotSlash. rewrite !Hp by (destruct Hm as [->| ->]; reflexivity).
    destruct (String.prefix "./" s) eqn:E1;
      [apply dropChars_app; now apply prefix_length in E1|].
    destruct (String.prefix "/" s) eqn:E2;
      [apply dropChars_app; now apply prefix_length in E2 | reflexivity]. }
  rewrite Hdot.
  assert (Hlead : stripLeadingSlash (stripDotSlash s ++ String mark t')
                  = stripLeadingSlash (stripDotSlash s) ++ String mark t').
  { unfold stripLeadingSlash.
    rewrite prefix_before_mark by (destruct Hm as [->| ->]; reflexivity).
    destruct (String.prefix "/" (stripDotSlash s)) eqn:E;
      [apply dropChars_app; now apply prefix_length in E | reflexivity]. }
  rewrite Hlead, backslashes_app.
  assert (Hbs : backslashesToSlashes (String mark t')
                = String mark (backslashesToSlashes t'))
    by (destruct Hm as [->| ->]; reflexivity).
  rewrite Hbs. now apply before_cuts_at_mark.
Qed.

Lemma query_and_fragment_are_ignored_witness :
  normalizeAssetPath ("./textures/wood.png" ++ String "?" "v=1%202#t")
  = normalizeAssetPath "./textures/wood.png".
Proof.
  apply (query_and_fragment_are_ignored "./textures/wood.png" "v=1%202#t" "?").
  - left. reflexivity.
  - reflexivity.
  - reflexivity.
  - eexists. reflexivity.
Defined.

(** X12: [normalizeAssetPath] can only raise on a reference that holds a
    percent sign. *)
Theorem only_percent_makes_normalize_throw (s : string) :
  throws (normalizeAssetPath s) -> containsChar "%" s = true.
Proof.
  intros [e He]. destruct (containsChar "%" s) eqn:E; [reflexivity|].
  unfold normalizeAssetPath in He.
  rewrite (PathNormalizerFacts.decode_without_percent s E) in He. discriminate.
Qed.

Lemma normal_form_is_never_longer_witness :
  String.length "textures/wood.png" <= String.length "./textures/wood.png?v=1".
Proof.
  apply (normal_form_is_never_longer "./textures/wood.png?v=1" "textures/wood.png").
  reflexivity.
Defined.

Lemma only_percent_makes_normalize_throw_witness :
  containsChar "%" "100%.png" = true.
Proof.
  apply (only_percent_makes_normalize_throw "100%.png").
  eexists. reflexivity.
Defined.

(** X9: a normal form holds no backslash, no question mark and no hash. *)
Theorem normal_form_has_no_separator_marks (s r : string) :
  normalizeAssetPath s = Ok r ->
  containsChar "\" r = false /\ containsChar "?" r = false /\
  containsChar "#" r = false.
Proof. apply PathNormalizerFacts.normal_form_clean. Qed.

Lemma normal_form_has_no_separator_marks_witness :
  containsChar "\" "a/b/c.bin" = false /\ containsChar "?" "a/b/c.bin" = false /\
  containsChar "#" "a/b/c.bin" = false.
Proof.
  apply (normal_form_has_no_separator_marks "a\b\c.bin?x#y" "a/b/c.bin").
  reflexivity.
Defined.

End PathNormalizerMore.

(** ** Build output names *)

Module BuildConfigFacts.
Import PathNormalizer AssetIndex Session BuildConfig PathNormalizerMore.
Local Open Scope string_scope.
Local Open Scope nat_scope.

Lemma dropChars_add (i j : nat) (s : string) :
  dropChars (i + j) s = dropChars j (dropChars i s).
Proof.
  revert s. induction i as [|i IH]; intros s; cbn; [reflexivity|].
  destruct s as [|c s]; [now destruct j | apply IH].
Qed.

Lemma endsWith_true (s suffix : string) :
  endsWith s suffix = true <->
  String.length suffix <= String.length s /\
  dropChars (String.length s - String.length suffix) s = suffix.
Proof.
  unfold endsWith. rewrite andb_true_iff, Nat.leb_le, String.eqb_eq. tauto.
Qed.

(** Two suffixes of one string: the shorter is a suffix of the longer. *)
Lemma suffixes_nest (s a b : string) :
  endsWith s a = true -> endsWith s b = true ->
  endsWith a b = true \/ endsWith b a = true.
Proof.
  rewrite !endsWith_true. intros [Hla Ha] [Hlb Hb].
  destruct (Nat.le_ge_cases (String.length b) (String.length a)) as [H|H].
  - left. split; [exact H|].
    assert (E : dropChars (String.length a - String.length b)
                  (dropChars (String.length s - String.length a) s) = b).
    { rewrite <- dropChars_add.
      replace (String.length s - String.length a +
               (String.length a - String.length b))
        with (String.length s - String.length b) by lia.
      exact Hb. }
    now rewrite Ha in E.
  - right. split; [exact H|].
    assert (E : dropChars (String.length b - String.length a)
                  (dropChars (String.length s - String.length b) s) = a).
    { rewrite <- dropChars_add.
      replace (String.length s - String.length b +
               (String.length b - String.length a))
        with (String.length s - String.length a) by lia.
      exact Ha. }
    now rewrite Hb in E.
Qed.

Lemma length_toLowerCase (s : string) :
  String.length (toLowerCase s) = String.length s.
Proof. induction s as [|c s IH]; cbn; [reflexivity | now rewrite IH]. Qed.

Lemma toLowerCase_dropChars (n : nat) (s : string) :
  toLowerCase (dropChars n s) = dropChars n (toLowerCase s).
Proof.
  revert s. induction n as [|n IH]; intros s; [reflexivity|].
  destruct s as [|c s]; cbn; [reflexivity | apply IH].
Qed.

Lemma endsWith_lower (s suffix : string) :
  endsWith s suffix = true ->
  endsWith (toLowerCase s) (toLowerCase suffix) = true.
Proof.
  rewrite !endsWith_true, !length_toLowerCase. intros [Hl Hd].
  split; [exact Hl|]. now rewrite <- toLowerCase_dropChars, Hd.
Qed.

Lemma endsWith_nonempty (s suffix : string) :
  endsWith s suffix = true -> suffix <> "" -> String.eqb s "" = false.
Proof.
  rewrite endsWith_true. intros [Hl _] Hne.
  destruct s; [|reflexivity]. destruct suffix; [congruence | cbn in Hl; lia].
Qed.

Lemma anyCase_inv (extensions : list string) (name : string) :
  endsWithAnyCase extensions name = true ->
  exists e, In e extensions /\ endsWith (toLowerCase name) e = true.
Proof. unfold endsWithAnyCase. now rewrite existsb_exists. Qed.

(** No listed extension is a suffix of another kind of extension. *)
Lemma extension_clash (name a b : string) :
  endsWith (toLowerCase name) a = true ->
  endsWith (toLowerCase name) b = true ->
  endsWith a b = false -> endsWith b a = false -> False.
Proof.
  intros Ha Hb Hab Hba.
  destruct (suffixes_nest _ _ _ Ha Hb); congruence.
Qed.

(** X8: [assetFileNames] sorts by extension: a name ending in [.css] goes to
    the css directory; a name ending in an image extension, in any letter
    case, goes to images and one ending in a font extension, in any letter
    case, to fonts; the [.css] test alone is case-sensitive, so [.CSS] falls
    through to assets. *)
Theorem asset_names_by_extension (name : string) :
  (endsWith name ".css" = true -> assetFileNames (Some name) = cssPattern) /\
  (endsWithAnyCase imageExtensions name = true ->
   assetFileNames (Some name) = imagesPattern) /\
  (endsWithAnyCase fontExtensions name = true ->
   assetFileNames (Some name) = fontsPattern) /\
  (endsWith name ".css" = false ->
   endsWith (toLowerCase name) ".css" = true ->
   assetFileNames (Some name) = assetsPattern).
Proof.
  unfold assetFileNames. repeat split.
  - intros H. rewrite (endsWith_nonempty _ _ H) by discriminate. now rewrite H.
  - intros H. destruct (anyCase_inv _ _ H) as (e & He & Hends).
    assert (Hne : String.eqb name "" = false).
    { destruct name; [|reflexivity]. cbn in He.
      repeat (destruct He as [<-|He]; [discriminate Hends|]). destruct He. }
    rewrite Hne, H.
    destruct (endsWith name ".css") eqn:Hcss; [|reflexivity].
    apply endsWith_lower in Hcss. exfalso. cbn in He.
    repeat (destruct He as [<-|He];
            [exact (extension_clash _ _ _ Hcss Hends eq_refl eq_refl)|]).
    destruct He.
  - intros H. destruct (anyCase_inv _ _ H) as (e & He & Hends).
    assert (Hne : String.eqb name "" = false).
    { destruct name; [|reflexivity]. cbn in He.
      repeat (destruct He as [<-|He]; [discriminate Hends|]). destruct He. }
    rewrite Hne, H.
    destruct (endsWith name ".css") eqn:Hcss.
    { apply endsWith_lower in Hcss. exfalso. cbn in He.
      repeat (destruct He as [<-|He];
              [exact (extension_clash _ _ _ Hcss Hends eq_refl eq_refl)|]).
      destruct He. }
    destruct (endsWithAnyCase imageExtensions name) eqn:Himg; [|reflexivity].
    destruct (anyCase_inv _ _ Himg) as (i & Hi & Hiends).
    exfalso. cbn in He, Hi.
    repeat (destruct He as [<-|He];
            [repeat (destruct Hi as [<-|Hi];
               [exact (extension_clash _ _ _ Hiends Hends eq_refl eq_refl)|]);
             destruct Hi|]).
    destruct He.
  - intros Hcss Hlow.
    assert (Hne : String.eqb name "" = false)
      by (destruct name; [discriminate Hlow | reflexivity]).
    rewrite Hne, Hcss.
    assert (Hnot : forall exts, Forall (fun e => endsWith e ".css" = false /\
                                   endsWith ".css" e = false) exts ->
                  endsWithAnyCase exts name = false).
    { intros exts Hall. destruct (endsWithAnyCase exts name) eqn:E; [|reflexivity].
      destruct (anyCase_inv _ _ E) as (e & He & Hends).
      rewrite List.Forall_forall in Hall. destruct (Hall e He) as [H1 H2].
      exfalso. exact (extension_clash _ _ _ Hends Hlow H1 H2). }
    rewrite (Hnot imageExtensions), (Hnot fontExtensions); [reflexivity| |];
      repeat constructor.
Qed.

End BuildConfigFacts.

(** ** Asset index, further properties *)

Module AssetIndexMore.
Import PathNormalizer AssetIndex Session SessionShape.
Local Open Scope string_scope.

Lemma indexFiles_app (a b : list File) :
  forall m : gmap string File,
    indexFiles (a ++ b) m = indexFiles a m ≫= indexFiles b.
Proof.
  induction a as [|f a IH]; intros m; [reflexivity|].
  cbn [indexFiles app]. destruct (indexKeys f) as [ks|e]; [|reflexivity].
  apply IH.
Qed.

Lemma indexFiles_origin (files : list File) :
  forall (m0 m : gmap string File) (key : string) (file : File),
    indexFiles files m0 = Ok m -> m !! key = Some file ->
    m0 !! key = Some file \/
    (In file files /\ exists keys, indexKeys file = Ok keys /\ In key keys).
Proof.
  induction files as [|f files IH]; intros m0 m key file Hbuild Hm.
  - injection Hbuild as <-. now left.
  - cbn [indexFiles] in Hbuild.
    destruct (indexKeys f) as [ks|e] eqn:Hks; [|discriminate].
    cbn in Hbuild.
    destruct (IH _ _ key file Hbuild Hm) as [H0|(Hin & keys & Hk & Hkey)].
    + rewrite AssetIndexFacts.setAll_lookup in H0.
      destruct (in_dec string_dec key ks) as [Hin|Hout]; [|now left].
      injection H0 as <-. right. split; [now left|]. now exists ks.
    + right. split; [now right|]. now exists keys.
Qed.

Lemma index_sound (files : list File) (m : gmap string File) :
  buildAssetMap files = Ok m -> indexedFrom files m.
Proof.
  intros Hbuild key file Hm.
  destruct (indexFiles_origin files ∅ m key file Hbuild Hm) as [H|H];
    [now rewrite lookup_empty in H | exact H].
Qed.

(** X13: every entry of the index [buildAssetMap] returns maps one of the
    keys of one of the given files to that file. *)
Theorem index_holds_only_given_files (files : list File)
    (m : gmap string File) :
  buildAssetMap files = Ok m -> indexedFrom files m.
Proof. apply index_sound. Qed.

Lemma last_set_stays (before after : list File) (f : File)
    (keys : list string) (key : string) (m : gmap string File) :
  buildAssetMap (before ++ f :: after) = Ok m ->
  indexKeys f = Ok keys -> In key keys ->
  (forall g ks, In g after -> indexKeys g = Ok ks -> ~ In key ks) ->
  m !! key = Some f.
Proof.
  unfold buildAssetMap. rewrite indexFiles_app.
  destruct (indexFiles before ∅) as [m1|e]; [|discriminate].
  cbn. intros Hbuild Hkeys Hkey Hafter.
  change (indexFiles (f :: after) m1 = Ok m) in Hbuild.
  cbn [indexFiles] in Hbuild. rewrite Hkeys in Hbuild. cbn in Hbuild.
  rewrite (AssetIndexFacts.indexFiles_untouched key after _ _ Hbuild Hafter).
  rewrite AssetIndexFacts.setAll_lookup.
  now destruct (in_dec string_dec key keys).
Qed.

(** X14: the last file of the list that contributes a key owns it in the
    index. *)
Theorem last_contributor_wins (before after : list File) (f : File)
    (keys : list string) (key : string) (m : gmap string File) :
  buildAssetMap (before ++ f :: after) = Ok m ->
  indexKeys f = Ok keys -> In key keys ->
  (forall g ks, In g after -> indexKeys g = Ok ks -> ~ In key ks) ->
  m !! key = Some f.
Proof. apply last_set_stays. Qed.

Lemma indexFiles_returns (files : list File) :
  forall m0 : gmap string File,
    returns (indexFiles files m0) <->
    forall f, In f files -> returns (indexKeys f).
Proof.
  induction files as [|f files IH]; intros m0.
  - split; [intros _ g [] | intros _; now exists m0].
  - cbn [indexFiles]. destruct (indexKeys f) as [ks|e] eqn:Hks.
    + cbn. rewrite IH. split.
      * intros H g [<-|Hg]; [now exists ks | now apply H].
      * intros H g Hg. apply H. now right.
    + cbn. split.
      * intros [m Hm]. discriminate.
      * intros H. destruct (H f (or_introl eq_refl)) as [ks Hk]. congruence.
Qed.

Lemma indexKeys_returns (f : File) :
  returns (indexKeys f) <->
  returns (normalizeAssetPath (name f)) /\
  returns (normalizeAssetPath (webkitRelativePath f)).
Proof.
  unfold indexKeys.
  destruct (normalizeAssetPath (name f)) as [n|e]; cbn.
  - destruct (normalizeAssetPath (webkitRelativePath f)) as [r|e]; cbn.
    + split; [intros _; split; eexists; reflexivity | intros _; eexists; reflexivity].
    + split; [intros [? ?]; discriminate | intros [_ [? ?]]; discriminate].
  - split; [intros [? ?]; discriminate | intros [[? ?] _]; discriminate].
Qed.

(** X15: [buildAssetMap] returns an index exactly when the name and the
    relative path of every file can be normalized; otherwise it raises. *)
Theorem index_is_built_iff_all_names_decode (files : list File) :
  returns (buildAssetMap files) <->
  forall f, In f files ->
    returns (normalizeAssetPath (name f)) /\
    returns (normalizeAssetPath (webkitRelativePath f)).
Proof.
  unfold buildAssetMap. rewrite indexFiles_returns. split.
  - intros H f Hf. apply indexKeys_returns, H, Hf.
  - intros H f Hf. apply indexKeys_returns, H, Hf.
Qed.

Lemma addToSet_has (value : string) (keys : list string) :
  In value (addToSet value keys).
Proof.
  unfold addToSet. destruct (existsb (String.eqb value) keys) eqn:E.
  - apply existsb_exists in E as (x & Hx & Heq).
    apply String.eqb_eq in Heq. now subst.
  - apply in_or_app. right. now left.
Qed.

Lemma addToSet_keeps (value x : string) (keys : list string) :
  In x keys -> In x (addToSet value keys).
Proof.
  unfold addToSet. destruct (existsb (String.eqb value) keys); [trivial|].
  intros H. apply in_or_app. now left.
Qed.

Lemma nonEmpty_true (s : string) : s <> "" -> nonEmpty s = true.
Proof.
  intros H. unfold nonEmpty. destruct (String.eqb_spec s ""); [contradiction|reflexivity].
Qed.

Lemma toLowerCase_empty (s : string) : toLowerCase s = "" -> s = "".
Proof. destruct s; [reflexivity | discriminate]. Qed.

(** The resolver probes the lowercased reference and the lowercased
    basename of every reference with a non-empty normal form. *)
Lemma addKey_probes_lowercase (url u : string) (first : list string) :
  normalizeAssetPath url = Ok u -> addKey url [] = Ok first ->
  (u <> "" -> In (toLowerCase u) first) /\
  (basenameOf u <> "" -> In (toLowerCase (basenameOf u)) first).
Proof.
  intros Hu. unfold addKey. rewrite Hu. cbn.
  destruct (String.eqb_spec u "") as [->|Hne].
  - cbn. intros [= <-]. split; [congruence | cbn; congruence].
  - rewrite (nonEmpty_true u Hne).
    destruct (String.eqb_spec (basenameOf u) "") as [Hb|Hb].
    + unfold nonEmpty. rewrite Hb. cbn. intros [= <-].
      split; [intros _; apply addToSet_has | congruence].
    + rewrite (nonEmpty_true _ Hb). intros [= <-]. split; intros _.
      * do 2 apply addToSet_keeps. apply addToSet_has.
      * apply addToSet_has.
Qed.

Lemma probe_single_valued (m : gmap string File) (f : File) (keys : list string)
    (key : string) :
  (forall k v, m !! k = Some v -> v = f) ->
  In key keys -> m !! key = Some f -> probe m keys = Some f.
Proof.
  intros Hall. induction keys as [|k keys IH]; intros Hin Hkey; [destruct Hin|].
  cbn [probe]. destruct (m !! k) as [v|] eqn:Hk.
  - now rewrite (Hall k v Hk).
  - destruct Hin as [->|Hin]; [congruence | now apply IH].
Qed.

(** X16: against the index of a single file, a reference whose normal form,
    or the basename of it, equals the normalized file name up to letter case
    resolves to that file, whatever the URL parser adds. *)
Theorem single_file_is_found_in_any_case (parser : string -> option string)
    (f : File) (m : gmap string File) (url u nm : string) :
  buildAssetMap [f] = Ok m ->
  normalizeAssetPath (name f) = Ok nm ->
  nm <> "" ->
  normalizeAssetPath url = Ok u ->
  toLowerCase u = toLowerCase nm \/
  toLowerCase (basenameOf u) = toLowerCase nm ->
  findAssetFileByUrl parser m url = Ok (Some f).
Proof.
  intros Hbuild Hnm Hne Hu Hmatch.
  assert (Hkeys : exists keys, indexKeys f = Ok keys /\ In (toLowerCase nm) keys).
  { assert (Hret : returns (indexKeys f)).
    { apply (indexFiles_returns [f] ∅); [now exists m | now left]. }
    destruct Hret as [keys Hk]. exists keys. split; [exact Hk|].
    unfold indexKeys in Hk. rewrite Hnm in Hk. cbn in Hk.
    destruct (normalizeAssetPath (webkitRelativePath f)); [|discriminate].
    cbn in Hk. injection Hk as <-. right. now left. }
  destruct Hkeys as (keys & Hk & Hin).
  assert (Hlow : m !! toLowerCase nm = Some f).
  { apply (last_set_stays [] [] f keys); try assumption.
    intros g ks []. }
  assert (Hall : forall k v, m !! k = Some v -> v = f).
  { intros k v Hkv.
    destruct (index_sound [f] m Hbuild k v Hkv) as [[<-|[]] _].
    reflexivity. }
  assert (Hlne : toLowerCase nm <> "")
    by (intros E; apply Hne; now apply toLowerCase_empty).
  unfold findAssetFileByUrl.
  destruct (addKey url []) as [first|e] eqn:Hfirst.
  2:{ unfold addKey in Hfirst. rewrite Hu in Hfirst. cbn in Hfirst.
      destruct (nonEmpty u); [destruct (nonEmpty (basenameOf u))|]; discriminate. }
  destruct (AssetIndexFacts.candidateKeys_start parser url first Hfirst)
    as [more ->].
  cbn. f_equal.
  destruct (addKey_probes_lowercase url u first Hu Hfirst) as [Hself Hbase].
  destruct Hmatch as [E|E].
  - apply (probe_single_valued m f _ (toLowerCase nm) Hall); [|exact Hlow].
    apply in_or_app. left. rewrite <- E. apply Hself.
    intros ->. apply Hlne. now rewrite <- E.
  - apply (probe_single_valued m f _ (toLowerCase nm) Hall); [|exact Hlow].
    apply in_or_app. left. rewrite <- E. apply Hbase.
    intros Hb. apply Hlne. rewrite <- E, Hb. reflexivity.
Qed.

Lemma single_file_is_found_in_any_case_witness :
  findAssetFileByUrl originRoot
    (<["panda.png" := panda]> (<["Panda.PNG" := panda]> ∅))
    "/models/PANDA.png?v=2" = Ok (Some panda).
Proof.
  apply (single_file_is_found_in_any_case originRoot panda _
           "/models/PANDA.png?v=2" "models/PANDA.png" "Panda.PNG").
  - vm_compute. reflexivity.
  - reflexivity.
  - discriminate.
  - reflexivity.
  - right. reflexivity.
Defined.

Lemma index_holds_only_given_files_witness :
  indexedFrom [panda] (<["panda.png" := panda]> (<["Panda.PNG" := panda]> ∅)).
Proof.
  apply (index_holds_only_given_files [panda]). vm_compute. reflexivity.
Defined.

Lemma last_contributor_wins_witness :
  exists m, buildAssetMap ([robotFile] ++ shadowFile :: [coverFile]) = Ok m /\
            m !! "robot.bin" = Some shadowFile.
Proof.
  eexists. split; [reflexivity|].
  apply (last_contributor_wins [robotFile] [coverFile] shadowFile
           ["robot.bin"; "robot.bin"] "robot.bin").
  - reflexivity.
  - reflexivity.
  - now left.
  - intros g ks [<-|[]] Hks Hin. vm_compute in Hks. injection Hks as <-.
    cbn in Hin. intuition discriminate.
Defined.

End AssetIndexMore.

(** ** Session, further properties *)

Module SessionMore.
Import PathNormalizer AssetIndex Session SessionShape SessionFacts.
Local Open Scope nat_scope.

#[local] Arguments occurrences : simpl never.
#[local] Arguments hasUrl : simpl never.

Lemma hasUrl_after_filter (u : ObjectUrl) (l : list ObjectUrl) :
  hasUrl u (List.filter (fun x => negb (Nat.eqb u x)) l) = false.
Proof.
  apply hasUrl_absent. rewrite occurrences_without. now rewrite Nat.eqb_refl.
Qed.

(** X17: releasing is idempotent: a second [revokeTrackedUrl] of the same URL
    and a second [revokeTransientResourceUrls] change nothing, and revoking a
    URL that is not tracked is a no-op. *)
Theorem releases_are_idempotent (u : ObjectUrl) (w : World) :
  revokeTrackedUrl u (revokeTrackedUrl u w) = revokeTrackedUrl u w /\
  (~ In u (trackedObjectUrls (viewer w)) -> revokeTrackedUrl u w = w) /\
  ~ In u (trackedObjectUrls (viewer (revokeTrackedUrl u w))) /\
  revokeTransientResourceUrls (revokeTransientResourceUrls w)
    = revokeTransientResourceUrls w.
Proof.
  assert (Hgone : hasUrl u (trackedObjectUrls (viewer (revokeTrackedUrl u w)))
                  = false).
  { unfold revokeTrackedUrl.
    destruct (hasUrl u (trackedObjectUrls (viewer w))) eqn:E; [|exact E].
    unfold onViewer. cbn. apply hasUrl_after_filter. }
  split; [|split; [|split]].
  - unfold revokeTrackedUrl at 1. now rewrite Hgone.
  - intros Hnot. unfold revokeTrackedUrl.
    destruct (hasUrl u (trackedObjectUrls (viewer w))) eqn:E; [|reflexivity].
    apply hasUrl_occurs, occurs_In in E. contradiction.
  - intros Hin. apply occurs_In, hasUrl_occurs in Hin. congruence.
  - rewrite !revokeTransient_eq. cbn. now rewrite app_nil_r.
Qed.

(** X18: running the teardown a second time changes nothing: no URL is revoked
    again. *)
Theorem teardown_twice (w : World) :
  onBeforeUnmount (onBeforeUnmount w) = onBeforeUnmount w.
Proof.
  rewrite !unmount_eq. cbn. rewrite !app_nil_r.
  unfold clearModel. cbn.
  destruct (scene (viewer w) && bool_decide (activeModel (viewer w) <> None));
    reflexivity.
Qed.

(** X19: when a pending load succeeds while the scene exists, the loaded scene
    becomes the active model, the model and loading flags are set and
    cleared, the extension lists are those of the document, the status names
    the file and the file count, the primary URL is released exactly once,
    every transient URL is released and the pool is empty, and the load is no
    longer pending. *)
Theorem load_success_installs_model (parser : string -> option string)
    (events : list Event) (generation : ObjectUrl) (p : PendingLoad)
    (gltf : GLTF) :
  let w := run parser initialWorld events in
  find (isGeneration generation) (pendingLoads (loader w)) = Some p ->
  scene (viewer w) = true ->
  let w' := step parser w (LoadSucceeded generation gltf) in
  activeModel (viewer w') = Some (gltfScene gltf) /\
  hasModel (viewer w') = true /\
  isLoading (viewer w') = false /\
  requiredExtensions (viewer w') = fst (extractExtensionInfo gltf) /\
  usedExtensions (viewer w') = snd (extractExtensionInfo gltf) /\
  statusText (viewer w') = loadedStatus (mainFile p) (fileCount p) /\
  releaseCount (mainUrl p) w' = 1 /\
  transientResourceUrls (viewer w') = [] /\
  (forall url, In url (transientResourceUrls (viewer w)) ->
               releaseCount url w' = 1) /\
  ~ isPending generation w'.
Proof.
  cbn zeta. intros Hfind Hscene. cbn [step]. rewrite Hfind.
  destruct (run_consistent parser events) as [Hacc Hpend].
  set (w := run parser initialWorld events) in *.
  pose proof (find_generation _ _ _ Hfind) as [Hgen Hin].
  pose proof (Hpend p Hin) as Hminted. apply Nat.ltb_lt in Hminted.
  assert (Hsettled : accounted (settle generation w))
    by (intros url; specialize (Hacc url); now open_world w).
  assert (Hscene' : scene (viewer (settle generation w)) = true)
    by now open_world w.
  assert (Hsame : transientResourceUrls (viewer (settle generation w)) =
                  transientResourceUrls (viewer w)) by now open_world w.
  assert (Hcount : mintedCount (settle generation w) = mintedCount w)
    by now open_world w.
  destruct (success_counts p gltf _ Hscene') as (Ht & Hn & Hb).
  assert (Hview : forall v,
            activeModel (withStatus (loadedStatus (mainFile p) (fileCount p))
              (withLoading false
                 (withExtensions (fst (extractExtensionInfo gltf))
                    (snd (extractExtensionInfo gltf))
                    (withModel (Some (gltfScene gltf)) true v))))
            = Some (gltfScene gltf)) by reflexivity.
  split; [|split; [|split; [|split; [|split; [|split]]]]];
    try (unfold onLoadSuccess; rewrite Hscene'; reflexivity).
  split; [|split; [|split]].
  - unfold releaseCount. rewrite Hb.
    fold (releaseCount (mainUrl p)
            (revokeTransientResourceUrls
               (revokeTrackedUrl (mainUrl p) (settle generation w)))).
    destruct (releases_counts (mainUrl p) (settle generation w) (mainUrl p))
      as (_ & _ & Hr & _).
    rewrite Hr, Nat.eqb_refl. specialize (Hsettled (mainUrl p)).
    rewrite Hcount, Hminted in Hsettled.
    destruct (hasUrl (mainUrl p) (trackedObjectUrls (viewer (settle generation w))))
      eqn:Hhas; [apply hasUrl_occurs in Hhas | apply hasUrl_none in Hhas]; lia.
  - rewrite Hn.
    now destruct (releases_counts (mainUrl p) (settle generation w) 0)
      as (_ & Hnil & _).
  - intros url Hurl. rewrite <- Hsame in Hurl. apply occurs_In in Hurl.
    unfold releaseCount. rewrite Hb.
    fold (releaseCount url
            (revokeTransientResourceUrls
               (revokeTrackedUrl (mainUrl p) (settle generation w)))).
    destruct (releases_counts (mainUrl p) (settle generation w) url)
      as (_ & _ & Hr & _).
    rewrite Hr. specialize (Hsettled url).
    destruct (url <? mintedCount (settle generation w)); [|lia].
    destruct (Nat.eqb_spec (mainUrl p) url) as [->|_]; [|lia].
    destruct (hasUrl url (trackedObjectUrls (viewer (settle generation w))))
      eqn:Hhas; [apply hasUrl_occurs in Hhas|]; lia.
  - intros [q Hq].
    assert (Hloader : pendingLoads (loader (onLoadSuccess p gltf (settle generation w)))
                      = List.filter (fun x => negb (isGeneration generation x))
                          (pendingLoads (loader w))).
    { unfold onLoadSuccess. rewrite Hscene'. cbn [negb].
      rewrite revokeTransient_eq. unfold revokeTrackedUrl.
      destruct (hasUrl _ _); now open_world w. }
    rewrite Hloader in Hq. apply find_some in Hq as [Hq1 Hq2].
    apply filter_In in Hq1 as [_ Hq1]. now rewrite Hq2 in Hq1.
Qed.

Lemma poolsTyped_step (w w' : World) :
  (forall url o, ownerOf url w = Some o -> ownerOf url w' = Some o) ->
  (forall url, In url (trackedObjectUrls (viewer w')) ->
     In url (trackedObjectUrls (viewer w)) \/ ownerOf url w' = Some Primary) ->
  (forall url, In url (transientResourceUrls (viewer w')) ->
     In url (transientResourceUrls (viewer w)) \/
     exists generation, ownerOf url w' = Some (Transient generation)) ->
  poolsTyped w -> poolsTyped w'.
Proof.
  intros Hown Htr Htn [Ht Hn]. split.
  - intros url Hin. destruct (Htr url Hin) as [H|H]; [|exact H].
    apply Hown, Ht, H.
  - intros url Hin. destruct (Htn url Hin) as [H|H]; [|exact H].
    destruct (Hn url H) as [g Hg]. exists g. apply Hown, Hg.
Qed.

Lemma ownerOf_after_mint (w : World) (minted : Minted) (url : ObjectUrl) (o : Owner) :
  option_map owner (nth_error (objectUrls (browser w)) url) = Some o ->
  option_map owner (nth_error (objectUrls (browser w) ++ [minted]) url) = Some o.
Proof.
  intros H. rewrite nth_error_app1; [exact H|].
  apply nth_error_Some. destruct (nth_error _ url); [discriminate | discriminate H].
Qed.

Lemma ownerOf_of_mint (objs : list Minted) (minted : Minted) :
  option_map owner (nth_error (objs ++ [minted]) (List.length objs))
  = Some (owner minted).
Proof. rewrite nth_error_app2, Nat.sub_diag by lia. reflexivity. Qed.

Lemma sweep_typed (w : World) :
  poolsTyped w -> poolsTyped (revokeTransientResourceUrls w).
Proof.
  apply poolsTyped_step.
  - intros url o. rewrite revokeTransient_eq. unfold ownerOf. now open_world w.
  - intros url. rewrite revokeTransient_eq. open_world w. now left.
  - intros url. rewrite revokeTransient_eq. cbn. intros [].
Qed.

Lemma revokeTracked_typed (u : ObjectUrl) (w : World) :
  poolsTyped w -> poolsTyped (revokeTrackedUrl u w).
Proof.
  unfold revokeTrackedUrl.
  destruct (hasUrl u (trackedObjectUrls (viewer w))); [|trivial].
  apply poolsTyped_step.
  - intros url o. unfold ownerOf. now open_world w.
  - intros url. open_world w. intros H. apply filter_In in H as [H _]. now left.
  - intros url. open_world w. now left.
Qed.

Lemma viewer_change_typed (f : Viewer -> Viewer) (w : World) :
  (forall v, trackedObjectUrls (f v) = trackedObjectUrls v) ->
  (forall v, transientResourceUrls (f v) = transientResourceUrls v) ->
  poolsTyped w -> poolsTyped (onViewer f w).
Proof.
  intros Htr Htn. apply poolsTyped_step.
  - intros url o. now destruct w.
  - intros url. destruct w as [v b l]. cbn. rewrite Htr. now left.
  - intros url. destruct w as [v b l]. cbn. rewrite Htn. now left.
Qed.

Lemma loader_change_typed (f : Loader -> Loader) (w : World) :
  poolsTyped w -> poolsTyped (onLoader f w).
Proof. intros H. now destruct w. Qed.

Lemma step_typed (parser : string -> option string) (w : World) (e : Event) :
  poolsTyped w -> poolsTyped (step parser w e).
Proof.
  intros H. destruct e as [|files|g url|g u| | |g gltf|g error|]; cbn [step].
  - unfold onMounted. apply loader_change_typed.
    apply viewer_change_typed; [now intros v | now intros v | exact H].
  - destruct files as [|f files]; [exact H|].
    unfold loadModelFromFileSet.
    destruct (negb (gltfLoader (viewer w)) || negb (scene (viewer w)));
      [exact H|].
    destruct (find isModelFile (f :: files)) as [main|].
    2:{ apply viewer_change_typed; [now intros v | now intros v | exact H]. }
    destruct (buildAssetMap (f :: files)) as [nextMap|err]; [|exact H].
    cbn. revert H. apply poolsTyped_step.
    + intros url o. unfold ownerOf. open_world w. apply (ownerOf_after_mint
        (mkWorld (mkViewer sc gl am hm il st re ue mp tr tn)
                 (mkBrowser objs revs) (mkLoader mi pl fl ti))).
    + intros url. unfold ownerOf, addTrackedUrl. open_world w.
      destruct (hasUrl (List.length objs) tr); [now left|].
      intros Hin. apply in_app_or in Hin as [Hin|[<-|[]]]; [now left|].
      right. apply ownerOf_of_mint.
    + intros url. unfold addTrackedUrl. open_world w. now left.
  - destruct (managerInstalled (loader w)); [|exact H].
    unfold resolveAssetUrl.
    destruct (mapIsEmpty (assetMap (viewer w)) || isDataUri url); [exact H|].
    destruct (findAssetFileByUrl parser (assetMap (viewer w)) url)
      as [[file|]|err]; cbn; [| exact H | exact H].
    apply loader_change_typed. revert H. apply poolsTyped_step.
    + intros u o. unfold ownerOf. open_world w. apply (ownerOf_after_mint
        (mkWorld (mkViewer sc gl am hm il st re ue mp tr tn)
                 (mkBrowser objs revs) (mkLoader mi pl fl ti))).
    + intros u. open_world w. now left.
    + intros u. unfold ownerOf. open_world w.
      intros Hin. apply in_app_or in Hin as [Hin|[<-|[]]]; [now left|].
      right. exists g. apply ownerOf_of_mint.
  - now apply loader_change_typed.
  - destruct (managerInstalled (loader w)); [|exact H].
    now apply loader_change_typed.
  - destruct (timers (loader w)) as [|n]; [exact H|].
    now apply sweep_typed, loader_change_typed.
  - destruct (find (isGeneration g) (pendingLoads (loader w))); [|exact H].
    unfold onLoadSuccess.
    destruct (negb (scene (viewer (settle g w))));
      [now apply loader_change_typed|].
    apply viewer_change_typed;
      [intros v; cbn; apply clearModel_tracked
      |intros v; cbn; apply clearModel_tracked|].
    now apply sweep_typed, revokeTracked_typed, loader_change_typed.
  - destruct (find (isGeneration g) (pendingLoads (loader w))); [|exact H].
    unfold onLoadError.
    apply viewer_change_typed; [now intros v | now intros v|].
    now apply sweep_typed, revokeTracked_typed, loader_change_typed.
  - rewrite unmount_eq. split; cbn; intros url [].
Qed.

(** X20: along every run the tracked set holds only URLs minted for a primary
    model file and the transient pool only URLs minted by the resolver. *)
Theorem pools_hold_their_own_kind (parser : string -> option string)
    (events : list Event) :
  let w := run parser initialWorld events in
  (forall url, In url (trackedObjectUrls (viewer w)) ->
               ownerOf url w = Some Primary) /\
  (forall url, In url (transientResourceUrls (viewer w)) ->
               exists generation, ownerOf url w = Some (Transient generation)).
Proof.
  cbn zeta. change (poolsTyped (run parser initialWorld events)).
  assert (H : poolsTyped initialWorld) by (split; intros url []).
  revert H. unfold run. generalize initialWorld.
  induction events as [|e events IH]; intros w H; [exact H|].
  cbn [fold_left]. apply IH. now apply step_typed.
Qed.

Lemma probe_hit (m : gmap string File) (keys : list string) (file : File) :
  probe m keys = Some file -> exists key, In key keys /\ m !! key = Some file.
Proof.
  induction keys as [|k keys IH]; [discriminate|].
  cbn [probe]. destruct (m !! k) as [v|] eqn:Hk.
  - intros [= <-]. exists k. split; [now left | exact Hk].
  - intros H. destruct (IH H) as (key & Hin & Hkey). exists key.
    split; [now right | exact Hkey].
Qed.

(** X21: [resolveAssetUrl] returns the reference untouched, without decoding
    it, when the index is empty or the reference is a data URI; whenever it
    returns, either nothing changed and the reference is passed through, or
    one URL was minted for a file of the index and appended to the transient
    pool, everything else being left alone. *)
Theorem resolver_outcomes (parser : string -> option string)
    (generation : ObjectUrl) (url : string) (w : World) :
  (mapIsEmpty (assetMap (viewer w)) = true \/ isDataUri url = true ->
   resolveAssetUrl parser generation url w = Ok (Unchanged url, w)) /\
  (forall r w',
     resolveAssetUrl parser generation url w = Ok (r, w') ->
     (r = Unchanged url /\ w' = w) \/
     (exists key file,
        assetMap (viewer w) !! key = Some file /\
        r = Mapped (mintedCount w) /\
        transientResourceUrls (viewer w')
          = (transientResourceUrls (viewer w) ++ [mintedCount w])%list /\
        objectUrls (browser w')
          = (objectUrls (browser w) ++ [mkMinted file (Transient generation)])%list /\
        revocations (browser w') = revocations (browser w) /\
        trackedObjectUrls (viewer w') = trackedObjectUrls (viewer w) /\
        assetMap (viewer w') = assetMap (viewer w) /\
        loader w' = loader w)).
Proof.
  unfold resolveAssetUrl. split.
  - intros [->| ->]; [reflexivity | now rewrite orb_true_r].
  - intros r w'.
    destruct (mapIsEmpty (assetMap (viewer w)) || isDataUri url);
      [intros [= <- <-]; now left|].
    unfold findAssetFileByUrl.
    destruct (candidateKeys parser url) as [keys|e]; [|discriminate].
    cbn. destruct (probe (assetMap (viewer w)) keys) as [file|] eqn:Hprobe;
      cbn; [|intros [= <- <-]; now left].
    intros [= <- <-]. right.
    destruct (probe_hit _ _ _ Hprobe) as (key & _ & Hkey).
    exists key, file. unfold mintedCount. now open_world w.
Qed.

Lemma find_skips (before after : list File) (main : File) :
  (forall f, In f before -> isModelFile f = false) ->
  isModelFile main = true ->
  find isModelFile (before ++ main :: after) = Some main.
Proof.
  intros Hb Hm. induction before as [|f before IH]; cbn.
  - now rewrite Hm.
  - rewrite (Hb f (or_introl eq_refl)). apply IH. intros g Hg. apply Hb. now right.
Qed.

(** X22: in a mounted viewer, when the index can be built, the first file of
    the list with a model extension is the one loaded: exactly one URL is
    minted, for that file, one load is registered for it with the length of
    the whole list, the index of the whole list is installed and the loading
    flag and status are set. *)
Theorem first_model_in_list_is_loaded (before after : list File) (main : File)
    (w : World) (nextMap : gmap string File) :
  viewerReady w ->
  (forall f, In f before -> isModelFile f = false) ->
  isModelFile main = true ->
  buildAssetMap (before ++ main :: after) = Ok nextMap ->
  exists w',
    loadModelFromFileSet (before ++ main :: after) w = Ok w' /\
    pendingLoads (loader w') =
      (pendingLoads (loader w) ++
       [mkPendingLoad (mintedCount w) main
          (List.length (before ++ main :: after))])%list /\
    objectUrls (browser w') =
      (objectUrls (browser w) ++ [mkMinted main Primary])%list /\
    mintedCount w' = S (mintedCount w) /\
    assetMap (viewer w') = nextMap /\
    isLoading (viewer w') = true /\
    statusText (viewer w') = loadingStatus main.
Proof.
  intros Hready Hb Hm Hbuild.
  destruct (first_model_file_is_loaded _ w main nextMap Hready
              (find_skips before after main Hb Hm) Hbuild)
    as (w' & Hload & Hp & Ho & Ha & Hl & Hs).
  exists w'. repeat split; try assumption.
  unfold mintedCount. rewrite Ho, length_app. cbn. lia.
Qed.

Lemma first_model_in_list_is_loaded_witness :
  exists w',
    loadModelFromFileSet ([woodPng] ++ sceneGltf :: [boxGlb])
      (onMounted initialWorld) = Ok w' /\
    pendingLoads (loader w') =
      (pendingLoads (loader (onMounted initialWorld)) ++
       [mkPendingLoad (mintedCount (onMounted initialWorld)) sceneGltf
          (List.length ([woodPng] ++ sceneGltf :: [boxGlb]))])%list /\
    objectUrls (browser w') =
      (objectUrls (browser (onMounted initialWorld)) ++
       [mkMinted sceneGltf Primary])%list /\
    mintedCount w' = S (mintedCount (onMounted initialWorld)) /\
    assetMap (viewer w') =
      <["box.glb" := boxGlb]> (<["Box.GLB" := boxGlb]>
        (<["scene.gltf" := sceneGltf]> (<["wood.png" := woodPng]> ∅))) /\
    isLoading (viewer w') = true /\
    statusText (viewer w') = loadingStatus sceneGltf.
Proof.
  apply (first_model_in_list_is_loaded [woodPng] [boxGlb] sceneGltf
           (onMounted initialWorld)).
  - split; reflexivity.
  - intros f [<-|[]]. reflexivity.
  - reflexivity.
  - vm_compute. reflexivity.
Defined.

Lemma load_success_installs_model_witness :
  let w := run originRoot initialWorld textureRequested in
  let gltf := mkGLTF 7 (Some (mkParserJson
                (Some (JArray [JString "KHR_draco_mesh_compression"; JNumber 3]))
                None)) in
  let w' := step originRoot w (LoadSucceeded 0 gltf) in
  activeModel (viewer w') = Some (gltfScene gltf) /\
  hasModel (viewer w') = true /\
  isLoading (viewer w') = false /\
  requiredExtensions (viewer w') = fst (extractExtensionInfo gltf) /\
  usedExtensions (viewer w') = snd (extractExtensionInfo gltf) /\
  statusText (viewer w') = loadedStatus sceneGltf 2 /\
  releaseCount 0 w' = 1 /\
  transientResourceUrls (viewer w') = [] /\
  (forall url, In url (transientResourceUrls (viewer w)) ->
               releaseCount url w' = 1) /\
  ~ isPending 0 w'.
Proof.
  apply (load_success_installs_model originRoot textureRequested 0
           (mkPendingLoad 0 sceneGltf 2)).
  - vm_compute. reflexivity.
  - vm_compute. reflexivity.
Defined.

(** X23: [toExtensionList] returns the string entries of an array in their
    order and nothing else: an array of strings comes back verbatim, the
    result distributes over concatenation, and anything that is not an array
    gives the empty list. *)
Theorem extension_list_keeps_strings_in_order (items more : list JsonItem)
    (names : list string) (item : JsonItem) :
  toExtensionList (Some (JArray (map JString names))) = names /\
  toExtensionList (Some (JArray (items ++ more))) =
    (toExtensionList (Some (JArray items)) ++
     toExtensionList (Some (JArray more)))%list /\
  (forall extension, In extension (toExtensionList (Some (JArray items))) <->
                     In (JString extension) items) /\
  toExtensionList (Some (JNotArray item)) = [] /\
  toExtensionList None = [].
Proof.
  repeat split; try reflexivity.
  - cbn. induction names as [|n names IH]; cbn; [reflexivity | now rewrite IH].
  - cbn. apply flat_map_app.
  - cbn. rewrite in_flat_map. intros (x & Hx & Hin).
    destruct x; cbn in Hin; try contradiction.
    destruct Hin as [<-|[]]. exact Hx.
  - intros H. cbn. apply in_flat_map. exists (JString extension).
    split; [exact H | now left].
Qed.

End SessionMore.

(** ** Adaptive scene look, further properties *)

Module LookMore.
Import PrimFloat.
Import Look LookFacts.
Local Open Scope float_scope.

(** X24: a model without any standard material gets the neutral look. *)
Theorem no_standard_material_gives_neutral_look (model : Object3D)
    (current : SceneLook) :
  samples model = [] ->
  applyAdaptiveSceneLook model (Some current) = Some neutralLook.
Proof.
  intros Hs. unfold applyAdaptiveSceneLook.
  rewrite tally_sums, Hs. reflexivity.
Qed.

(** X25: the look depends only on the sequence of luminance and metalness
    values the traversal samples: not on the shape of the scene graph, not on
    the materials of other kinds, and not on the look in place before. *)
Theorem look_depends_on_samples_in_order (m1 m2 : Object3D)
    (c1 c2 : SceneLook) :
  samples m1 = samples m2 ->
  applyAdaptiveSceneLook m1 (Some c1) = applyAdaptiveSceneLook m2 (Some c2).
Proof.
  intros Hs. unfold applyAdaptiveSceneLook.
  now rewrite (tally_sums m1), (tally_sums m2), Hs.
Qed.

Lemma look_depends_on_samples_in_order_witness :
  applyAdaptiveSceneLook
    (Object (Mesh [gray 0.5 0.34; OtherMaterial; gray 0.5 0.56]) [])
    (Some neutralLook)
  = applyAdaptiveSceneLook
      (Object NotMesh
         [Object (Mesh [gray 0.5 0.34]) [Object NotMesh []];
          Object (Mesh [gray 0.5 0.56]) []])
      (Some lowLuminanceLook).
Proof.
  apply (look_depends_on_samples_in_order
           (Object (Mesh [gray 0.5 0.34; OtherMaterial; gray 0.5 0.56]) [])
           (Object NotMesh
              [Object (Mesh [gray 0.5 0.34]) [Object NotMesh []];
               Object (Mesh [gray 0.5 0.56]) []])
           neutralLook lowLuminanceLook).
  reflexivity.
Defined.

Lemma no_standard_material_gives_neutral_look_witness :
  applyAdaptiveSceneLook (Object (Mesh [OtherMaterial]) [Object NotMesh []])
    (Some lowLuminanceLook) = Some neutralLook.
Proof.
  apply (no_standard_material_gives_neutral_look
           (Object (Mesh [OtherMaterial]) [Object NotMesh []]) lowLuminanceLook).
  reflexivity.
Defined.

End LookMore.

(** ** Camera auto-framing, further properties *)

Module FramingMore.
Import Framing FramingShape FramingFacts.
Local Open Scope R_scope.

(** X27: for a field of view from 1 to 179 degrees and a largest extent of
    at most 10^12 (so that no intermediate value leaves the range of the
    numbers), the near plane is at least 0.01, the far plane at least 120,
    and near is below far. *)
Theorem clipping_planes_are_ordered (box : Box3) (modelAt : Vector3)
    (cam : Camera) (ctl : Controls) :
  1 <= fov cam <= 179 ->
  maxDimension box <= 1000000000000 ->
  exists rig,
    frameModel box modelAt (Some (cam, ctl)) = Some rig /\
    0.01 <= near (camera rig) /\
    120 <= far (camera rig) /\
    near (camera rig) < far (camera rig).
Proof.
  intros _ _. eexists. split; [reflexivity|]. cbn.
  set (d := distance box cam).
  unfold Rmax. repeat (destruct (Rle_dec _ _)); repeat split; lra.
Qed.

Lemma clipping_planes_are_ordered_witness :
  exists rig,
    frameModel unitBox (mkVector3 3 0 0)
      (Some (mountedCamera, mkControls (mkVector3 0 0 0) 0 1000)) = Some rig /\
    0.01 <= near (camera rig) /\
    120 <= far (camera rig) /\
    near (camera rig) < far (camera rig).
Proof.
  apply (clipping_planes_are_ordered unitBox (mkVector3 3 0 0)
           mountedCamera (mkControls (mkVector3 0 0 0) 0 1000)).
  - unfold mountedCamera. cbn. lra.
  - rewrite unit_box_extent. lra.
Defined.

Lemma half_fov_tangent_positive (cam : Camera) :
  0 < fov cam < 180 -> 0 < tan (fovRadians cam / 2).
Proof.
  intros [H0 H1]. pose proof PI_RGT_0 as Hpi. unfold fovRadians.
  apply tan_gt_0; nra.
Qed.

(** X28: for a field of view from 1 to 179 degrees and a largest extent
    between 10^-12 and 10^12 (so that no intermediate value leaves the range
    of the numbers), the orbit limits are positive and ordered, and the
    camera is placed strictly between them. *)
Theorem camera_starts_within_orbit_limits (box : Box3) (modelAt : Vector3)
    (cam : Camera) (ctl : Controls) :
  1 <= fov cam <= 179 ->
  1 / 1000000000000 <= maxDimension box <= 1000000000000 ->
  exists rig,
    frameModel box modelAt (Some (cam, ctl)) = Some rig /\
    0 < minDistance (controls rig) < maxDistance (controls rig) /\
    minDistance (controls rig) * minDistance (controls rig)
      < squaredNorm (position (camera rig))
      < maxDistance (controls rig) * maxDistance (controls rig).
Proof.
  intros Hfov _. eexists. split; [reflexivity|]. cbn.
  assert (Hd : 0 < distance box cam).
  { unfold distance. destruct (maxDimension_cases box) as (_ & _ & Hpos).
    pose proof (half_fov_tangent_positive cam ltac:(lra)).
    apply Rdiv_lt_0_compat; lra. }
  unfold squaredNorm. cbn. set (d := distance box cam) in *.
  repeat split; nra.
Qed.

Lemma camera_starts_within_orbit_limits_witness :
  exists rig,
    frameModel unitBox (mkVector3 3 0 0)
      (Some (mountedCamera, mkControls (mkVector3 0 0 0) 0 1000)) = Some rig /\
    0 < minDistance (controls rig) < maxDistance (controls rig) /\
    minDistance (controls rig) * minDistance (controls rig)
      < squaredNorm (position (camera rig))
      < maxDistance (controls rig) * maxDistance (controls rig).
Proof.
  apply (camera_starts_within_orbit_limits unitBox (mkVector3 3 0 0)
           mountedCamera (mkControls (mkVector3 0 0 0) 0 1000)).
  - unfold mountedCamera. cbn. lra.
  - rewrite unit_box_extent. lra.
Defined.

(** X29: an empty box and a box reduced to a point both get the extent 1; for
    an empty box the model is not moved. *)
Theorem degenerate_boxes_use_unit_extent (box : Box3) (modelAt : Vector3)
    (cam : Camera) (ctl : Controls) :
  (isEmpty box = true ->
   maxDimension box = 1 /\
   exists rig, frameModel box modelAt (Some (cam, ctl)) = Some rig /\
               modelPosition rig = modelAt) /\
  (boxMin box = boxMax box -> maxDimension box = 1).
Proof.
  split.
  - intros He.
    assert (Hl : largestExtent box = 0).
    { unfold largestExtent, getSize. rewrite He. cbn.
      unfold Rmax. repeat (destruct (Rle_dec _ _)); lra. }
    destruct (maxDimension_cases box) as (H0 & _). split; [now apply H0|].
    eexists. split; [reflexivity|]. cbn. unfold sub, getCenter. rewrite He. cbn.
    destruct modelAt as [x y z]. cbn. now rewrite !Rminus_0_r.
  - intros Hp. destruct (maxDimension_cases box) as (H0 & _). apply H0.
    unfold largestExtent, getSize.
    destruct (isEmpty box); cbn; [|rewrite Hp];
      unfold Rmax; repeat (destruct (Rle_dec _ _)); lra.
Qed.

End FramingMore.
